(** * ylp_wip: quadrature helpers, (un)vectorisation, Krylov bases and Pade
      approximants

    A shallow embedding of [src/integrate.py] and [src/misc.py] and the
    properties of the specification that are stated about them.

    Conventions of the embedding.
    - Python calls that may raise are functions into [result]; the text a
      call prints is returned next to its result.
    - Array sizes are natural numbers, the optional argument [c] of [unvec]
      is a Python integer ([Z]).  The two floating-point tests of [unvec],
      [sqrt(len).is_integer()] and [(len / c).is_integer()], are exact for
      every length below 2^52 and are embedded as the integer tests they
      compute there.
    - The linear algebra of [arnoldi], [lanczos], [krylov_expm] and
      [pade_expm] is embedded in exact arithmetic, over an arbitrary
      algebraically closed field with a norm and a conjugation (the complex
      numbers); [dtype = complex_] arrays are matrices over that field.  A
      quotient by a zero scalar, for which numpy emits a RuntimeWarning and
      stores nan or inf, has no value in exact arithmetic: it ends the
      computation with [ZeroDivide].
    - [liouvillian] is embedded on square matrices of positive order over a
      commutative ring; [np.kron] is given by its entries.

    Part II proves the properties of the specification; Part III proves
    further properties of the same functions and of [liouvillian]. *)

From HB Require Import structures.
From Stdlib Require Import String ZArith Lia.
From mathcomp Require Import boot order algebra.
From mathcomp Require Import algC.

Set Implicit Arguments.
Unset Strict Implicit.
Unset Printing Implicit Defensive.

Import GRing.Theory Num.Theory Order.POrderTheory.

(** [%Z] is taken by the integers of MathComp; Python integers are the
    binary integers of the standard library. *)
Delimit Scope Z_scope with coqZ.

(* ===================================================================== *)
(** * Part I: the embedding                                               *)
(* ===================================================================== *)

(** ** Results of Python calls *)

Inductive exn : Set :=
  | IndexError
  | TypeError
  | ValueError
  | ZeroDivisionError
  | LinAlgError.

Inductive result (T : Type) : Type :=
  | Ret (x : T)
  | Raise (e : exn).

Arguments Ret {T} x.
Arguments Raise {T} e.

Definition rbind {T U : Type} (r : result T) (k : T -> result U) : result U :=
  match r with
  | Ret x => k x
  | Raise e => Raise e
  end.

Notation "'let!' x ':=' e 'in' k" := (rbind e (fun x => k))
  (at level 200, x name, e at level 100, k at level 200,
   format "'[v' 'let!'  x  ':='  e  'in' '/' k ']'").

(** [for i in is: s = body(i, s)], stopping at the first exception. *)
Fixpoint for_ {S : Type} (body : nat -> S -> result S) (idx : seq nat) (s : S)
  : result S :=
  match idx with
  | [::] => Ret s
  | i :: idx' => let! s' := body i s in for_ body idx' s'
  end.

(** [s[i]] on a Python list or a one-dimensional array, [i >= 0]. *)
Fixpoint item {T : Type} (s : seq T) (i : nat) : result T :=
  match s, i with
  | [::], _ => Raise IndexError
  | x :: _, 0 => Ret x
  | _ :: s', i'.+1 => item s' i'
  end.

(** ** src/integrate.py *)

Module Integrate.
Section Integrate.

Local Open Scope ring_scope.

(** Numbers are the elements of a field [R]. *)
Variable R : fieldType.

(** The values that [pre_integrate] handles: numbers, callables of one
    numeric argument, and lists of values. *)
Inductive pyval : Type :=
  | VInt (z : Z)
  | VNum (x : R)
  | VFun (f : R -> result R)
  | VList (l : seq pyval).

(** [v[i]] *)
Definition subscript (v : pyval) (i : nat) : result pyval :=
  match v with
  | VList l => item l i
  | _ => Raise TypeError
  end.

(** [f(x)] *)
Definition call (f : pyval) (x : R) : result R :=
  match f with
  | VFun g => g x
  | _ => Raise TypeError
  end.

Definition Z_to_R (z : Z) : R :=
  match z with
  | Z0 => 0
  | Zpos p => (Pos.to_nat p)%:R
  | Zneg p => - (Pos.to_nat p)%:R
  end.

(** [v * d] for a number [d]; a sequence or a callable on the left is a
    TypeError. *)
Definition times (v : pyval) (d : R) : result pyval :=
  match v with
  | VInt z => Ret (VNum (Z_to_R z * d))
  | VNum x => Ret (VNum (x * d))
  | _ => Raise TypeError
  end.

(** [numpy.polynomial.legendre.leggauss]: the nodes and the weights of the
    Gauss-Legendre rule of a degree, a table of numpy. *)
Variable leggauss : nat -> seq R * seq R.

(** [scipy.integrate.quad(f, a, b)], an external routine. *)
Variable quad : pyval -> R -> R -> result pyval.

Definition integrate (f : pyval) (a b : R) (deg : nat) : result R :=
  let: (x, w) := leggauss deg in
  let h := (b - a) / 2%:R in
  let c := (a + b) / 2%:R in
  let! val := for_ (fun i val =>
                      let! wi := item w i in
                      let! xi := item x i in
                      let! y := call f (h * xi + c) in
                      Ret (val + wi * y))
                   (iota 0 deg) 0 in
  Ret (val * h).

(** One iteration of either loop of [pre_integrate]; [integ] is the
    integrator of the branch. *)
Definition pre_integrate_body (integ : pyval -> R -> R -> result pyval)
    (H_coeff : pyval) (tlist : seq R) (i : nat) (integrals : seq pyval)
  : result (seq pyval) :=
  let! Hi := subscript H_coeff i in
  let! f0 := subscript Hi 0 in
  let! a := item tlist i in
  let! b := item tlist i.+1 in
  let! val0 := integ f0 a b in
  let! Hi' := subscript H_coeff i in
  let! f1 := subscript Hi' 1 in
  let! a1 := item tlist i in
  let! b1 := item tlist i.+1 in
  let! val1 := integ f1 a1 b1 in
  let! H2 := subscript H_coeff 2 in
  let! b2 := item tlist i.+1 in
  let! a2 := item tlist i in
  let! val2 := times H2 (b2 - a2) in
  Ret (rcons integrals (VList [:: val0; val1; val2])).

Definition pre_integrate (H_coeff : pyval) (tlist : seq R) (method : string)
  : seq string * result pyval :=
  if String.eqb method "scipy" then
    ([::],
     let! integrals :=
       for_ (pre_integrate_body quad H_coeff tlist) (iota 0 (size tlist)) [::] in
     Ret (VList integrals))
  else if String.eqb method "me" then
    ([::],
     let! integrals :=
       for_ (pre_integrate_body
               (fun f a b => let! v := integrate f a b 100 in Ret (VNum v))
               H_coeff tlist)
            (iota 0 (size tlist)) [::] in
     Ret (VList integrals))
  else
    ([:: "Error: invalid method."%string], Ret (VInt 0)).

End Integrate.
End Integrate.

(** ** src/misc.py: vec and unvec *)

Module Misc.
Section Vectorise.

(** The elements of the arrays. *)
Variable T : Type.

(** A numpy array of one or of two dimensions; a two-dimensional array is
    its shape and the list of its rows. *)
Inductive ndarray : Type :=
  | Arr1 (v : seq T)
  | Arr2 (nrows ncols : nat) (rows : seq (seq T)).

(** [rows] is the list of the rows of an array of shape [(nr, nc)]. *)
Definition well_shaped (nr nc : nat) (rows : seq (seq T)) : bool :=
  (size rows == nr) && all (fun r => size r == nc) rows.

(** The columns of a list of rows of length [nc] (and the rows of a list of
    columns). *)
Fixpoint transpose (nc : nat) (rows : seq (seq T)) : seq (seq T) :=
  match rows with
  | [::] => nseq nc [::]
  | r :: rows' => [seq p.1 :: p.2 | p <- zip r (transpose nc rows')]
  end.

(** [a.flatten('F')]: the columns of [a], one after the other. *)
Definition flatten_F (a : ndarray) : seq T :=
  match a with
  | Arr1 v => v
  | Arr2 _ nc rows => flatten (transpose nc rows)
  end.

(** [v.reshape((c, n), order = 'F')] on a one-dimensional [v]: the columns
    are the [n] consecutive runs of [c] elements of [v]. *)
Definition reshape_F (v : seq T) (c n : Z) : result ndarray :=
  if (c <? 0)%coqZ || (n <? 0)%coqZ then Raise ValueError
  else
    let c' := Z.to_nat c in
    let n' := Z.to_nat n in
    if c' * n' != size v then Raise ValueError
    else Ret (Arr2 c' n' (transpose c' (reshape (nseq n' c') v))).

Definition vec (mat : ndarray) : seq T := flatten_F mat.

(** [sqrt(len).is_integer()] *)
Definition sqrt_is_integer (len : nat) : bool :=
  Nat.sqrt len * Nat.sqrt len == len.

(** [(len / c).is_integer()] for [c <> 0] *)
Definition quotient_is_integer (len : nat) (c : Z) : bool :=
  (Z.rem (Z.of_nat len) c =? 0)%coqZ.

(** The last two statements of [unvec], where [c] is an integer. *)
Definition unvec_reshape (v : seq T) (c : Z) : result (option ndarray) :=
  if (c =? 0)%coqZ then Raise ZeroDivisionError
  else
    let n := Z.quot (Z.of_nat (size v)) c in
    let! a := reshape_F v c n in Ret (Some a).

Definition unvec (v : seq T) (c : option Z)
  : seq string * result (option ndarray) :=
  if size v %% 2 != 0 then
    if size v == 1 then ([::], Ret (Some (Arr1 v)))
    else
      ([:: "Error: odd number of elements in vector. Cannot form matrix."%string],
       Ret None)
  else
    match c with
    | None =>
        if sqrt_is_integer (size v) then
          ([::], unvec_reshape v (Z.of_nat (Nat.sqrt (size v))))
        else
          ([:: "Error: vector cannot form a square matrix. Please provide a column length, c."%string],
           Ret None)
    | Some c =>
        if (c =? 0)%coqZ then ([::], Raise ZeroDivisionError)
        else if ~~ quotient_is_integer (size v) c then
          ([:: "Error: value of c is invalid. Cannot split vector evenly into columns of length c"%string],
           Ret None)
        else ([::], unvec_reshape v c)
    end.

(** The shapes that the specification has [unvec] reject ([None]), in its
    words: an odd length other than 1; an even length that is no perfect
    square, without [c]; a [c] that does not divide the length. *)
Definition perfect_square (len : nat) : Prop := exists r : nat, len = r * r.

Definition divides (k : Z) (len : nat) : Prop := Z.divide k (Z.of_nat len).





End Vectorise.
End Misc.

(** ** src/misc.py: arnoldi, lanczos, krylov_expm *)

(** The value of a computation in exact arithmetic, or the loop index at
    which it divides by a zero scalar (0 before the loop). *)
Inductive exact (T : Type) : Type :=
  | Val (x : T)
  | ZeroDivide (j : nat).

Arguments Val {T} x.
Arguments ZeroDivide {T} j.

Definition ebind {T U : Type} (r : exact T) (k : T -> exact U) : exact U :=
  match r with
  | Val x => k x
  | ZeroDivide j => ZeroDivide j
  end.

(** What one iteration of a loop with an early [return] leaves. *)
Inductive flow (S : Type) : Type :=
  | Next (s : S)
  | Return (s : S).

Arguments Next {S} s.
Arguments Return {S} s.

(** [for j in js: body], where the body may return from the function. *)
Fixpoint loop_ {S : Type} (body : nat -> S -> exact (flow S)) (js : seq nat)
    (s : S) : exact S :=
  match js with
  | [::] => Val s
  | j :: js' =>
      match body j s with
      | Val (Next s') => loop_ body js' s'
      | Val (Return s') => Val s'
      | ZeroDivide k => ZeroDivide k
      end
  end.

Module Krylov.
Section Krylov.

Local Open Scope ring_scope.

Variable C : numClosedFieldType.

(** The order [m = A.shape[0]] is positive: [V[:, 0]] exists. *)
Variable m' : nat.
Local Notation m := m'.+1.

Implicit Types (A V H W : 'M[C]_m) (b w u : 'cV[C]_m) (i j : nat).

(** Indexing.  Every index of [arnoldi] and [lanczos] is below [m], where
    [inord] is the identity. *)
Definition getc V j : 'cV[C]_m := col (inord j) V.            (* V[:, j] *)
Definition get H i j : C := H (inord i) (inord j).             (* H[i, j] *)
Definition setc V j w : 'M[C]_m :=                             (* V[:, j] = w *)
  \matrix_(r, k) (if (k : nat) == j then w r 0 else V r k).
Definition set H i j (x : C) : 'M[C]_m :=                      (* H[i, j] = x *)
  \matrix_(r, k) (if ((r : nat) == i) && ((k : nat) == j) then x else H r k).
Definition getv (a : 'cV[C]_m) j : C := a (inord j) 0.         (* a[j] *)
Definition setv (a : 'cV[C]_m) j (x : C) : 'cV[C]_m :=         (* a[j] = x *)
  \col_r (if (r : nat) == j then x else a r 0).

(** [np.dot(u.conj(), w)] *)
Definition vdot u w : C := \sum_k (u k 0)^* * w k 0.

(** [np.linalg.norm(w, 2)] and [np.linalg.norm(w)] of a vector *)
Definition norm2 w : C := sqrtC (\sum_k `|w k 0| ^+ 2).

(** [w / h] in the iteration [j] *)
Definition vdiv j w (h : C) : exact 'cV[C]_m :=
  if h == 0 then ZeroDivide j else Val (\col_k (w k 0 / h)).

(** The breakdown tolerance [1e-12] *)
Definition tol : C := (10%:R ^+ 12)^-1.

(** The body of the inner loop of [arnoldi], on [(w, H)]. *)
Definition arnoldi_inner V j (wH : 'cV[C]_m * 'M[C]_m) i
  : 'cV[C]_m * 'M[C]_m :=
  let: (w, H) := wH in
  let H1 := set H i.-1 j.-1 (vdot (getc V i.-1) w) in
  (w - get H1 i.-1 j.-1 *: getc V i.-1, H1).

(** [w = np.dot(A, V[:, j-1])] and the inner loop [for i in range(1, j+1)] *)
Definition arnoldi_project A V H j : 'cV[C]_m * 'M[C]_m :=
  foldl (arnoldi_inner V j) (A *m getc V j.-1, H) (iota 1 j).

(** The body of the outer loop of [arnoldi], on [(V, H)]. *)
Definition arnoldi_body A j (VH : 'M[C]_m * 'M[C]_m)
  : exact (flow ('M[C]_m * 'M[C]_m)) :=
  let: (V, H) := VH in
  let: (w, H1) := arnoldi_project A V H j in
  if j != m then
    let H2 := set H1 j j.-1 (norm2 w) in
    if tol < get H2 j j.-1 then
      ebind (vdiv j w (get H2 j j.-1)) (fun v => Val (Next (setc V j v, H2)))
    else Val (Return (V, H2))
  else Val (Next (V, H1)).

(** The state of [arnoldi] before its loop. *)
Definition arnoldi_init b : exact ('M[C]_m * 'M[C]_m) :=
  ebind (vdiv 0 b (norm2 b)) (fun v0 => Val (setc 0 0 v0, 0)).

Definition arnoldi A b : exact ('M[C]_m * 'M[C]_m) :=
  ebind (arnoldi_init b) (loop_ (arnoldi_body A) (iota 1 m)).

(** [arnoldi_at A b j (V, H)]: the call [arnoldi(A, b)] enters the
    iteration [j] of its loop with the arrays [V] and [H]. *)
Inductive arnoldi_at A b : nat -> 'M[C]_m * 'M[C]_m -> Prop :=
  | arnoldi_at_first s :
      arnoldi_init b = Val s -> arnoldi_at A b 1 s
  | arnoldi_at_next j s s' :
      arnoldi_at A b j s -> (j <= m)%N ->
      arnoldi_body A j s = Val (Next s') ->
      arnoldi_at A b j.+1 s'.

(** The columns of [V] below [k] are orthonormal; the columns of [V] from
    [k] on are zero. *)
Definition orthonormal_upto V (k : nat) : Prop :=
  forall i j, (i < k)%N -> (j < k)%N ->
    vdot (getc V i) (getc V j) = (i == j)%:R.

Definition zero_from V (k : nat) : Prop :=
  forall j, (k <= j)%N -> (j < m)%N -> getc V j = 0.

(** The entries of [H] below the first subdiagonal are zero. *)
Definition upper_hessenberg H : Prop :=
  forall r c : 'I_m, (c.+1 < r)%N -> H r c = 0.

(** At the start of the iteration [j] of [arnoldi]: the columns of [V] from
    [j] on are still zero, [H] is upper Hessenberg, and every column [c] of
    [H] whose next basis vector [V[:, c+1]] has been stored holds the
    coordinates of [A V[:, c]] in the basis. *)
Definition arnoldi_rel_inv A j V H : Prop :=
  [/\ (0 < j)%N, zero_from V j, upper_hessenberg H
    & forall c, (c.+1 < j)%N -> (c.+1 < m)%N ->
        A *m getc V c = V *m getc H c].

(** What the iteration [j < m] of [arnoldi] does on the arrays [V] and [H]:
    the norm of [w] is stored in [H[j, j-1]]; above the tolerance the
    quotient becomes the column [j] of [V] and the call enters the next
    iteration; otherwise the call returns the arrays, whose columns from
    [j] on are zero. *)
Definition arnoldi_step_policy A b j V H : Prop :=
  let w := (arnoldi_project A V H j).1 in
  let H2 := set (arnoldi_project A V H j).2 j j.-1 (norm2 w) in
  let V2 := setc V j (\col_k (w k 0 / get H2 j j.-1)) in
  [/\ get H2 j j.-1 = norm2 w,
      tol < get H2 j j.-1 ->
      [/\ arnoldi_body A j (V, H) = Val (Next (V2, H2)),
          getc V2 j = \col_k (w k 0 / get H2 j j.-1)
        & arnoldi_at A b j.+1 (V2, H2)]
    & ~~ (tol < get H2 j j.-1) ->
      [/\ arnoldi_body A j (V, H) = Val (Return (V, H2)),
          arnoldi A b = Val (V, H2), zero_from V j & zero_from H2 j]].

(** What one pass of the inner loop of [arnoldi] does to [w]. *)
Definition mgs_w V w i : 'cV[C]_m :=
  w - vdot (getc V i.-1) w *: getc V i.-1.

(** The invariant of the loop of [arnoldi] at the start of iteration [j]. *)
Definition arnoldi_inv j V H : Prop :=
  [/\ orthonormal_upto V (minn j m), zero_from V j & zero_from H j.-1].

(** The arrays of [lanczos]. *)
Record lanczos_state : Type := LanczosState {
  lz_V : 'M[C]_m;
  lz_W : 'M[C]_m;
  lz_alpha : 'cV[C]_m;
  lz_beta : 'cV[C]_m
}.

(** The state of [lanczos] before its loop. *)
Definition lanczos_init A b : exact lanczos_state :=
  ebind (vdiv 0 b (norm2 b)) (fun v0 =>
  let V := setc 0 0 v0 in
  let w_ := A *m getc V 0 in
  let alpha := setv 0 0 (vdot w_ (getc V 0)) in
  let W := setc 0 0 (w_ - getv alpha 0 *: getc V 0) in
  Val (LanczosState V W alpha 0)).

(** The body of the loop of [lanczos]; it has no early [return]. *)
Definition lanczos_body A j (s : lanczos_state) : exact (flow lanczos_state) :=
  let beta := setv (lz_beta s) j.-1 (norm2 (getc (lz_W s) j.-2)) in
  ebind (vdiv j (getc (lz_W s) j.-2) (getv beta j.-1)) (fun v =>
  let V := setc (lz_V s) j.-1 v in
  let w_ := A *m getc V j.-1 in
  let alpha := setv (lz_alpha s) j.-1 (vdot w_ (getc V j.-1)) in
  let W := setc (lz_W s) j.-1
             (w_ - getv alpha j.-1 *: getc V j.-1
                 - getv beta j.-1 *: getc V j.-2) in
  Val (Next (LanczosState V W alpha beta))).


(** [np.diagflat(alpha) + np.diagflat(beta[1:], 1) + np.diagflat(beta[1:], -1)] *)
Definition tridiag (alpha beta : 'cV[C]_m) : 'M[C]_m :=
  \matrix_(r, k) ((if r == k then alpha r 0 else 0)
                  + (if (k : nat) == r.+1 then beta k 0 else 0)
                  + (if (r : nat) == k.+1 then beta r 0 else 0)).

Definition lanczos A b : exact ('M[C]_m * 'M[C]_m) :=
  ebind (lanczos_init A b) (fun s0 =>
  ebind (loop_ (lanczos_body A) (iota 2 m') s0) (fun s =>
  Val (lz_V s, tridiag (lz_alpha s) (lz_beta s)))).

(** [scipy.linalg.expm], an external routine. *)
Variable expm : 'M[C]_m -> 'M[C]_m.

(** [np.array_equal(A.conj().T, A)] *)
Definition is_hermitian A : bool := (map_mx Num.conj A)^T == A.

Definition krylov_expm A b : exact 'cV[C]_m :=
  ebind (if is_hermitian A then lanczos A b else arnoldi A b) (fun VH =>
  let: (V, H) := VH in
  Val (norm2 b *: V *m expm H *m col 0 (1%:M : 'M[C]_m))).

End Krylov.
End Krylov.

(** ** src/misc.py: pade_expm *)

Module Pade.
Section Pade.

Local Open Scope ring_scope.

Variable F : numFieldType.
Variable n' : nat.
Local Notation n := n'.+1.

(** [sp.special.factorial(k)] *)
Definition factorial (k : nat) : F := k`!%:R.

(** [np.linalg.inv(D)]: raises LinAlgError on a singular matrix. *)
Definition inv (D : 'M[F]_n) : result 'M[F]_n :=
  if D \in unitmx then Ret (invmx D) else Raise LinAlgError.

Definition pade_expm (A : 'M[F]_n) (p q : nat) : result 'M[F]_n :=
  let f_p := factorial p in
  let f_q := factorial q in
  let f_p_q := factorial (p + q) in
  let N :=
    foldl (fun N i =>
             N + ((factorial (p + q - i) * f_p)
                    / (f_p_q * factorial i * factorial (p - i))) *: A ^+ i)
          0 (iota 0 p.+1) in
  let D :=
    foldl (fun D i =>
             D + ((factorial (p + q - i) * f_q)
                    / (f_p_q * factorial i * factorial (q - i))) *: (- A) ^+ i)
          0 (iota 0 q.+1) in
  let! Dinv := inv D in
  Ret (Dinv *m N).

(** The approximant in the words of the specification. *)
Definition pade_c (p q i : nat) : F :=
  ((p + q - i)`!%:R * p`!%:R) / ((p + q)`!%:R * i`!%:R * (p - i)`!%:R).

Definition pade_d (p q i : nat) : F :=
  ((p + q - i)`!%:R * q`!%:R) / ((p + q)`!%:R * i`!%:R * (q - i)`!%:R).

Definition pade_N (A : 'M[F]_n) (p q : nat) : 'M[F]_n :=
  \sum_(0 <= i < p.+1) pade_c p q i *: A ^+ i.

Definition pade_D (A : 'M[F]_n) (p q : nat) : 'M[F]_n :=
  \sum_(0 <= i < q.+1) pade_d p q i *: (- A) ^+ i.

End Pade.
End Pade.

(** ** src/misc.py: liouvillian *)

Module Liouville.
Section Liouville.

Local Open Scope ring_scope.

Variable R : comNzRingType.

(** The order [n = H.shape[0]] of the square array [H], positive. *)
Variable n' : nat.
Local Notation n := n'.+1.

(** [np.eye(n)] *)
Definition eye : 'M[R]_n := \matrix_(i, j) (if i == j then 1 else 0).

(** [np.kron(A, B)] on square arrays of order [n]: the entry [(r, c)] is
    [A[r // n, c // n] * B[r % n, c % n]]. *)
Definition kron (A B : 'M[R]_n) : 'M[R]_(n * n) :=
  \matrix_(r, c) (A (inord (r %/ n)%N) (inord (c %/ n)%N)
                  * B (inord (r %% n)%N) (inord (c %% n)%N)).

Definition liouvillian (H : 'M[R]_n) : 'M[R]_(n * n) :=
  kron eye H - kron H^T eye.

(** The two-dimensional array with the entries of a matrix, and the column
    vector with the entries of a one-dimensional array of length [n * n]. *)
Definition array_of (M : 'M[R]_n) : Misc.ndarray R :=
  Misc.Arr2 n n [seq [seq M i j | j <- enum 'I_n] | i <- enum 'I_n].

Definition column_of (v : seq R) : 'cV[R]_(n * n) := \col_r nth 0 v r.

End Liouville.
End Liouville.

(* ===================================================================== *)
(** * Part II: the properties                                             *)
(* ===================================================================== *)

(** ** Loops and lists *)

Section Loops.

Variable T : Type.

Lemma item_overflow (s : seq T) (i : nat) :
  size s <= i -> item s i = Raise IndexError.
Proof. by elim: s i => [|x s IH] [|i] //= /IH. Qed.

Lemma item_cases (s : seq T) (i : nat) :
  (exists x, item s i = Ret x) \/ item s i = Raise IndexError.
Proof.
elim: s i => [|x s IH] [|i] /=; [by right | by right | by left; exists x |].
exact: IH.
Qed.

Variable S : Type.

(** A loop whose body returns or raises IndexError does the same. *)
Lemma for_cases (body : nat -> S -> result S) :
  (forall i s, (exists s', body i s = Ret s') \/ body i s = Raise IndexError) ->
  forall idx s,
    (exists s', for_ body idx s = Ret s') \/ for_ body idx s = Raise IndexError.
Proof.
move=> Hbody; elim=> [|i idx IH] s /=; first by left; exists s.
by case: (Hbody i s) => [[s' ->]|->] /=; [exact: IH | right].
Qed.

(** A loop whose body raises at the last index raises. *)
Lemma for_last_raises (body : nat -> S -> result S) (i : nat) (idx : seq nat) :
  (forall s, exists e, body i s = Raise e) ->
  forall s, exists e, for_ body (rcons idx i) s = Raise e.
Proof.
move=> Hi; elim: idx => [|k idx IH] s /=.
  by case: (Hi s) => e ->; exists e.
by case: (body k s) => [s'|e] /=; [exact: IH | exists e].
Qed.

End Loops.

(** ** pre_integrate *)

Section PreIntegrate.

Import Integrate.

Variable R : fieldType.
Variable leggauss : nat -> seq R * seq R.
Variable quad : pyval R -> R -> R -> result (pyval R).

(** In the iteration of the last index [i = len(tlist) - 1] the read of
    [tlist[i+1]] is out of range, whatever was accumulated. *)
Lemma pre_integrate_body_last integ (H_coeff : pyval R) (t : R) (ts : seq R)
    (acc : seq (pyval R)) :
  exists e, pre_integrate_body integ H_coeff (t :: ts) (size ts) acc = Raise e.
Proof.
rewrite /pre_integrate_body (@item_overflow _ (t :: ts) (size ts).+1) //.
move: (item (t :: ts) (size ts)) => ra.
case: (subscript H_coeff (size ts)) => [Hi|e] /=; last by exists e.
case: (subscript Hi 0) => [f0|e] /=; last by exists e.
by case: ra => [a|e] /=; [exists IndexError | exists e].
Qed.

(** With method "me" the loop of [pre_integrate] runs over
    [range(len(tlist))], one index more than there are intervals, and its
    last iteration reads [tlist[len(tlist)]]: on every non-empty time grid
    the call raises, whatever the coefficients are. *)
Lemma pre_integrate_me_raises (H_coeff : pyval R) (t : R) (ts : seq R) :
  exists e,
    pre_integrate leggauss quad H_coeff (t :: ts) "me" = ([::], Raise e).
Proof.
have -> : pre_integrate leggauss quad H_coeff (t :: ts) "me"
          = ([::], let! integrals :=
                     for_ (pre_integrate_body
                             (fun f a b =>
                                let! v := integrate leggauss f a b 100 in
                                Ret (VNum v))
                             H_coeff (t :: ts))
                          (iota 0 (size ts + 1)) [::] in
                   Ret (VList integrals)) by rewrite addn1.
rewrite iotaD add0n cats1.
set body := pre_integrate_body _ _ _.
have [e ->] := @for_last_raises _ body (size ts) (iota 0 (size ts))
                 (pre_integrate_body_last _ H_coeff t ts) [::].
by exists e.
Qed.

(** On a callable that returns, [integrate] returns or reads its table out
    of range. *)
Lemma integrate_cases (f : R -> R) (a b : R) (deg : nat) :
  (exists v, integrate leggauss (VFun (fun t => Ret (f t))) a b deg = Ret v)
  \/ integrate leggauss (VFun (fun t => Ret (f t))) a b deg = Raise IndexError.
Proof.
rewrite /integrate; case: (leggauss deg) => x w.
pose body (i : nat) (val : R) : result R :=
  let! wi := item w i in
  let! xi := item x i in
  let! y := call (VFun (fun t => Ret (f t)))
              ((b - a) / 2%:R * xi + (a + b) / 2%:R)%R in
  Ret (val + wi * y)%R.
have Hbody i s : (exists s', body i s = Ret s') \/ body i s = Raise IndexError.
  rewrite /body.
  case: (item_cases w i) => [[wi ->]|->] /=; last by right.
  case: (item_cases x i) => [[xi ->]|->] /=; last by right.
  by left; eexists.
by case: (for_cases Hbody (iota 0 deg) 0%R) => [[v ->]|->] /=;
  [left; eexists | right].
Qed.

(** C6: on a grid of two points and one triple of coefficients, two
    callables that return and a constant, [pre_integrate] with method "me"
    raises IndexError (the third entry is read from [H_coeff[2]], and the
    loop has one iteration too many): it returns no sequence of triples. *)
Theorem pre_integrate_me_failing_input (f g : R -> R) (c t0 t1 : R) :
  pre_integrate leggauss quad
    (VList [:: VList [:: VFun (fun t => Ret (f t));
                         VFun (fun t => Ret (g t)); VNum c]])
    [:: t0; t1] "me"
  = ([::], Raise IndexError).
Proof.
rewrite /pre_integrate /= /pre_integrate_body /=.
case: (integrate_cases f t0 t1 100) => [[v0 ->]|->] //=.
by case: (integrate_cases g t0 t1 100) => [[v1 ->]|->].
Qed.

(** C7: a method other than "scipy" and "me" prints the diagnostic and
    returns the integer 0; nothing is raised, and the other arguments are
    not looked at. *)
Theorem pre_integrate_unknown_method (H_coeff : pyval R) (tlist : seq R)
    (method : string) :
  method <> "scipy"%string -> method <> "me"%string ->
  pre_integrate leggauss quad H_coeff tlist method
  = ([:: "Error: invalid method."%string], Ret (VInt R 0)).
Proof.
move=> /String.eqb_neq Hs /String.eqb_neq Hm.
by rewrite /pre_integrate Hs Hm.
Qed.

End PreIntegrate.

Lemma pre_integrate_unknown_method_witness :
  "bogus"%string <> "scipy"%string /\ "bogus"%string <> "me"%string /\
  Integrate.pre_integrate (R := rat) (fun _ => ([::], [::]))
    (fun _ _ _ => Raise TypeError) (Integrate.VList [::]) [::] "bogus"
  = ([:: "Error: invalid method."%string], Ret (Integrate.VInt rat 0)).
Proof.
split; first by [].
split; first by [].
by apply: pre_integrate_unknown_method.
Defined.

(** ** vec and unvec *)

Section VectoriseTheory.

Import Misc.

Variable T : Type.

Implicit Types (r v : seq T) (rows cols : seq (seq T)) (c : option Z).

Let conses r cols : seq (seq T) := [seq p.1 :: p.2 | p <- zip r cols].

Lemma all_size_conses k r cols :
  all (fun s => size s == k) cols ->
  all (fun s => size s == k.+1) (conses r cols).
Proof.
elim: r cols => [|x r IH] [|s cols] //= /andP[Hs /IH Hcols].
by rewrite eqSS Hs.
Qed.

Lemma transpose_conses k r cols :
  size r = size cols -> transpose k.+1 (conses r cols) = r :: transpose k cols.
Proof.
elim: r cols => [|x r IH] [|s cols] //= [Hsz].
by rewrite -/(conses r cols) IH.
Qed.

Lemma size_transpose nc rows :
  all (fun s => size s == nc) rows -> size (transpose nc rows) = nc.
Proof.
elim: rows => [|r rows IH] /=; first by rewrite size_nseq.
by case/andP=> /eqP Hr /IH Hrows; rewrite size_map size_zip Hr Hrows minnn.
Qed.

Lemma all_size_transpose nc rows :
  all (fun s => size s == size rows) (transpose nc rows).
Proof.
elim: rows => [|r rows IH] /=; last exact: all_size_conses.
by rewrite all_nseq eqxx orbT.
Qed.

Lemma transpose0_nseq k : transpose 0 (nseq k ([::] : seq T)) = [::].
Proof. by case: k => [|k] //=; case: (transpose _ _). Qed.

(** Transposing twice gives the rows back. *)
Lemma transposeK nr nc rows :
  well_shaped nr nc rows -> transpose nr (transpose nc rows) = rows.
Proof.
case/andP=> /eqP <-{nr}; elim: rows => [|r rows IH] /=.
  by rewrite transpose0_nseq.
case/andP=> /eqP Hr Hrows.
by rewrite transpose_conses ?IH // size_transpose.
Qed.

Lemma shape_uniform k (ss : seq (seq T)) :
  all (fun s => size s == k) ss -> shape ss = nseq (size ss) k.
Proof. by elim: ss => [|s ss IH] //= /andP[/eqP -> /IH ->]. Qed.

Lemma shape_transpose nr nc rows :
  well_shaped nr nc rows -> shape (transpose nc rows) = nseq nc nr.
Proof.
case/andP=> /eqP <- Hrows.
by rewrite (shape_uniform (all_size_transpose nc rows)) size_transpose.
Qed.

Lemma size_vec nr nc rows :
  well_shaped nr nc rows -> size (vec (Arr2 nr nc rows)) = nr * nc.
Proof.
by move=> Hw; rewrite /vec /= size_flatten (shape_transpose Hw) sumn_nseq.
Qed.

(** Reshaping in column-major order undoes flattening in that order. *)
Lemma reshape_F_vec nr nc rows :
  well_shaped nr nc rows ->
  reshape_F (vec (Arr2 nr nc rows)) (Z.of_nat nr) (Z.of_nat nc)
  = Ret (Arr2 nr nc rows).
Proof.
move=> Hw; rewrite /reshape_F.
have -> : (Z.of_nat nr <? 0)%coqZ = false by apply/Z.ltb_ge; lia.
have -> : (Z.of_nat nc <? 0)%coqZ = false by apply/Z.ltb_ge; lia.
rewrite /= !Nat2Z.id (size_vec Hw) eqxx /=.
by rewrite /vec /= -(shape_transpose Hw) flattenK transposeK.
Qed.

Lemma modn2_neq0 (k : nat) : (k %% 2 != 0) = odd k.
Proof. by rewrite modn2; case: (odd k). Qed.

Lemma sqrt_is_integerP (len : nat) :
  reflect (perfect_square len) (sqrt_is_integer len).
Proof.
apply: (iffP eqP) => [H|[r ->]]; first by exists (Nat.sqrt len).
by rewrite -multE Nat.sqrt_square.
Qed.

Lemma quotient_is_integerP (len : nat) (k : Z) :
  k <> Z0 -> reflect (divides k len) (quotient_is_integer len k).
Proof.
move=> Hk; apply: (iffP idP) => [/Z.eqb_eq|] H; first exact/Z.rem_divide.
exact/Z.eqb_eq/Z.rem_divide.
Qed.


(** C10: a vector of length 1 comes back as it is, one-dimensional: it is
    not reshaped to a 1 x 1 matrix and not rejected for its odd length,
    with or without [c]. *)
Theorem unvec_singleton (x : T) c :
  unvec [:: x] c = ([::], Ret (Some (Arr1 [:: x]))).
Proof. by []. Qed.

(** C5, as amended: for a square matrix [M] of even, positive order,
    [unvec(vec(M))] without [c] is [M]. *)
Theorem unvec_vec_square (n : nat) rows :
  0 < n -> ~~ odd n -> well_shaped n n rows ->
  unvec (vec (Arr2 n n rows)) None = ([::], Ret (Some (Arr2 n n rows))).
Proof.
move=> Hn Heven Hw; rewrite /unvec modn2_neq0 (size_vec Hw) oddM.
rewrite (negbTE Heven) /=.
have -> : sqrt_is_integer (n * n) by apply/sqrt_is_integerP; exists n.
rewrite -multE Nat.sqrt_square /unvec_reshape (size_vec Hw).
have -> : (Z.of_nat n =? 0)%coqZ = false.
  by apply/Z.eqb_neq; move/ltP: Hn; lia.
have -> : Z.quot (Z.of_nat (n * n)) (Z.of_nat n) = Z.of_nat n.
  by rewrite -multE Nat2Z.inj_mul Z.quot_mul //; move/ltP: Hn; lia.
by rewrite reshape_F_vec.
Qed.




End VectoriseTheory.

Lemma unvec_vec_square_witness :
  [/\ 0 < 2, ~~ odd 2, Misc.well_shaped 2 2 [:: [:: 1; 2]; [:: 3; 4]]
    & Misc.unvec (Misc.vec (Misc.Arr2 2 2 [:: [:: 1; 2]; [:: 3; 4]])) None
      = ([::], Ret (Some (Misc.Arr2 2 2 [:: [:: 1; 2]; [:: 3; 4]])))].
Proof. by split; [| | | apply: unvec_vec_square]. Defined.

(** C5 as stated fails on a matrix that is not square and on a square
    matrix of odd order: [unvec] returns [None] for both. *)
Lemma unvec_vec_counterexample :
  [/\ Misc.well_shaped 1 2 [:: [:: 1; 2]],
      (Misc.unvec (Misc.vec (Misc.Arr2 1 2 [:: [:: 1; 2]])) None).2
      = Ret None,
      Misc.well_shaped 3 3 [:: [:: 1; 2; 3]; [:: 4; 5; 6]; [:: 7; 8; 9]]
    & (Misc.unvec
         (Misc.vec (Misc.Arr2 3 3 [:: [:: 1; 2; 3]; [:: 4; 5; 6]; [:: 7; 8; 9]]))
         None).2
      = Ret None].
Proof. by []. Qed.



(** ** pade_expm *)

Section PadeTheory.

Import Pade.
Local Open Scope ring_scope.

Variable F : numFieldType.
Variable n' : nat.
Local Notation n := n'.+1.

Implicit Types (A D N : 'M[F]_n) (p q i : nat).

(** An accumulating loop is a sum. *)
Lemma foldl_accumulate (f : nat -> 'M[F]_n) (s : seq nat) (z : 'M[F]_n) :
  foldl (fun acc i => acc + f i) z s = z + \sum_(i <- s) f i.
Proof.
elim: s z => [|i s IH] z /=; first by rewrite big_nil addr0.
by rewrite IH big_cons addrA.
Qed.

Lemma pade_numerator A p q :
  foldl (fun N i =>
           N + ((factorial F (p + q - i) * factorial F p)
                  / (factorial F (p + q) * factorial F i * factorial F (p - i)))
               *: A ^+ i)
        0 (iota 0 p.+1)
  = pade_N A p q.
Proof. by rewrite foldl_accumulate add0r /pade_N /index_iota subn0. Qed.

Lemma pade_denominator A p q :
  foldl (fun D i =>
           D + ((factorial F (p + q - i) * factorial F q)
                  / (factorial F (p + q) * factorial F i * factorial F (q - i)))
               *: (- A) ^+ i)
        0 (iota 0 q.+1)
  = pade_D A p q.
Proof. by rewrite foldl_accumulate add0r /pade_D /index_iota subn0. Qed.

(** C9: when the denominator matrix [D] is invertible, [pade_expm(A, p, q)]
    is [D^-1 N] for the sums [N] and [D] of the specification. *)
Theorem pade_expm_correct A p q :
  pade_D A p q \in unitmx ->
  pade_expm A p q = Ret (invmx (pade_D A p q) *m pade_N A p q).
Proof.
by move=> HD; rewrite /pade_expm pade_numerator pade_denominator /inv HD.
Qed.

(** A singular denominator is a LinAlgError. *)
Lemma pade_expm_singular A p q :
  pade_D A p q \notin unitmx -> pade_expm A p q = Raise LinAlgError.
Proof.
move=> HD.
by rewrite /pade_expm pade_numerator pade_denominator /inv (negbTE HD).
Qed.

End PadeTheory.

Lemma pade_expm_correct_witness :
  Pade.pade_D (0%R : 'M[rat]_2) 1 1 \in unitmx /\
  Pade.pade_expm (0%R : 'M[rat]_2) 1 1
  = Ret (invmx (Pade.pade_D (0%R : 'M[rat]_2) 1 1)
           *m Pade.pade_N (0%R : 'M[rat]_2) 1 1)%R.
Proof.
have HD : Pade.pade_D (0%R : 'M[rat]_2) 1 1 \in unitmx.
  rewrite /Pade.pade_D unlock /= /Pade.pade_d.
  rewrite oppr0 expr0 expr1 scaler0 !addr0 /= subn0 fact0 mulr1.
  by rewrite divff ?scale1r ?unitmx1 // mulf_neq0 // pnatr_eq0.
by split; [exact: HD | apply: pade_expm_correct].
Defined.

(** ** Krylov bases: indexing, inner product, norm, the inner loop *)

Section KrylovBasics.

Import Krylov.
Local Open Scope ring_scope.

Variable C : numClosedFieldType.
Variable m' : nat.
Local Notation m := m'.+1.

Implicit Types (A V H W : 'M[C]_m) (b w u v : 'cV[C]_m) (i j k : nat).

Lemma iota_rcons j l : iota j l.+1 = rcons (iota j l) (j + l)%N.
Proof. by rewrite -[l.+1]addn1 iotaD cats1. Qed.

(** *** Indexing *)

Lemma getc_setc_eq V j w : (j < m)%N -> getc (setc V j w) j = w.
Proof.
by move=> Hj; apply/matrixP=> r c; rewrite !mxE inordK // eqxx ord1.
Qed.

Lemma getc_setc_neq V j w i :
  (i < m)%N -> i != j -> getc (setc V j w) i = getc V i.
Proof.
by move=> Hi Hij; apply/matrixP=> r c; rewrite !mxE inordK // (negbTE Hij).
Qed.

Lemma getc_set H i j (x : C) k :
  (k < m)%N -> k != j -> getc (set H i j x) k = getc H k.
Proof.
move=> Hk Hkj; apply/matrixP=> r c.
by rewrite !mxE inordK // (negbTE Hkj) andbF.
Qed.

Lemma get_set_eq H i j (x : C) :
  (i < m)%N -> (j < m)%N -> get (set H i j x) i j = x.
Proof. by move=> Hi Hj; rewrite /get mxE !inordK // !eqxx. Qed.

Lemma getc0 j : getc (0 : 'M[C]_m) j = 0.
Proof. by apply/matrixP=> r c; rewrite !mxE. Qed.

(** *** The inner product and the norm *)

Lemma vdotBr u w v : vdot u (w - v) = vdot u w - vdot u v.
Proof.
rewrite /vdot -sumrB; apply: eq_bigr => k _.
by rewrite !mxE mulrBr.
Qed.

Lemma vdotZr u (a : C) w : vdot u (a *: w) = a * vdot u w.
Proof.
rewrite /vdot mulr_sumr; apply: eq_bigr => k _.
by rewrite !mxE mulrCA.
Qed.

Lemma vdotZl (a : C) u w : vdot (a *: u) w = a^* * vdot u w.
Proof.
rewrite /vdot mulr_sumr; apply: eq_bigr => k _.
by rewrite !mxE rmorphM mulrA.
Qed.

Lemma vdot0r u : vdot u 0 = 0.
Proof. by rewrite /vdot big1 // => k _; rewrite mxE mulr0. Qed.

Lemma vdot0l w : vdot 0 w = 0.
Proof. by rewrite /vdot big1 // => k _; rewrite mxE rmorph0 mul0r. Qed.

Lemma vdotC u w : vdot u w = (vdot w u)^*.
Proof.
rewrite /vdot rmorph_sum; apply: eq_bigr => k _.
by rewrite rmorphM /= conjCK mulrC.
Qed.

Lemma vdot_norm2 w : vdot w w = norm2 w ^+ 2.
Proof.
rewrite /norm2 sqrtCK; apply: eq_bigr => k _.
by rewrite normCK mulrC.
Qed.

Lemma norm2_ge0 w : 0 <= norm2 w.
Proof. by rewrite sqrtC_ge0 sumr_ge0 // => k _; rewrite exprn_ge0. Qed.

Lemma norm2_eq0 w : (norm2 w == 0) = (w == 0).
Proof.
have Hge (k : 'I_m) : true -> 0 <= `|w k 0| ^+ 2 by rewrite exprn_ge0.
rewrite /norm2 sqrtC_eq0 (psumr_eq0 _ Hge).
apply/allP/eqP => [H0|-> k _]; last by rewrite /= mxE normr0 expr0n /= eqxx.
apply/matrixP=> r c; rewrite ord1 mxE.
have := H0 r (mem_index_enum _).
by rewrite /= sqrf_eq0 normr_eq0 => /eqP.
Qed.

Lemma norm2_real w : (norm2 w)^* = norm2 w.
Proof. by apply: conj_Creal; rewrite ger0_real ?norm2_ge0. Qed.

Lemma tol_gt0 : 0 < (tol C).
Proof. by rewrite /tol invr_gt0 exprn_gt0 // ltr0n. Qed.

(** *** The inner loop: modified Gram-Schmidt *)


Lemma arnoldi_inner_w V j l w H :
  (0 < j <= m)%N -> (l <= j)%N ->
  (foldl (arnoldi_inner V j) (w, H) (iota 1 l)).1
  = foldl (mgs_w V) w (iota 1 l).
Proof.
case/andP=> Hj0 Hjm; elim: l => [|l IH] Hl //.
rewrite iota_rcons !foldl_rcons add1n.
case: (foldl (arnoldi_inner V j) _ _) (IH (ltnW Hl)) => w1 H1 /= <-.
rewrite /mgs_w get_set_eq //; first exact: leq_trans Hl Hjm.
by rewrite prednK.
Qed.

Lemma arnoldi_inner_cols V j s wH k :
  (k < m)%N -> k != j.-1 ->
  getc (foldl (arnoldi_inner V j) wH s).2 k = getc wH.2 k.
Proof.
move=> Hk Hkj; elim: s wH => [|i s IH] [w H] //=.
by rewrite IH /= getc_set.
Qed.

Lemma mgs_orthogonal V j l w :
  orthonormal_upto V j -> (l <= j)%N ->
  forall i, (i < l)%N -> vdot (getc V i) (foldl (mgs_w V) w (iota 1 l)) = 0.
Proof.
move=> Hon; elim: l => [|l IH] Hl i //.
rewrite iota_rcons foldl_rcons add1n /mgs_w /=.
set w1 := foldl _ _ _ in IH *.
rewrite ltnS leq_eqVlt vdotBr vdotZr => /orP[/eqP ->|Hil].
  by rewrite Hon // eqxx mulr1 subrr.
have Hij : (i < j)%N := ltn_trans Hil Hl.
by rewrite (IH (ltnW Hl) _ Hil) Hon // (ltn_eqF Hil) mulr0 subr0.
Qed.

(** The vector that the inner loop leaves is orthogonal to the columns
    built so far, and only the column [j-1] of [H] was written. *)
Lemma arnoldi_project_orthogonal A V H j :
  (0 < j <= m)%N -> orthonormal_upto V j ->
  forall i, (i < j)%N -> vdot (getc V i) (arnoldi_project A V H j).1 = 0.
Proof.
move=> Hj Hon i Hi.
by rewrite /arnoldi_project arnoldi_inner_w // (mgs_orthogonal _ Hon).
Qed.

Lemma arnoldi_project_cols A V H j k :
  (k < m)%N -> k != j.-1 -> getc (arnoldi_project A V H j).2 k = getc H k.
Proof. by move=> Hk Hkj; rewrite /arnoldi_project arnoldi_inner_cols. Qed.

(** *** Normalisation *)

Lemma vdiv_nonzero j w (h : C) : h != 0 -> vdiv j w h = Val (h^-1 *: w).
Proof.
move=> Hh; rewrite /vdiv (negbTE Hh); congr Val.
by apply/matrixP=> r c; rewrite !mxE mulrC (ord1 c).
Qed.

Lemma vdiv_zero j w : vdiv j w 0 = ZeroDivide j.
Proof. by rewrite /vdiv eqxx. Qed.

Lemma normalised_unit w :
  norm2 w != 0 -> vdot ((norm2 w)^-1 *: w) ((norm2 w)^-1 *: w) = 1.
Proof.
move=> Hh; rewrite vdotZl vdotZr vdot_norm2 fmorphV /= norm2_real.
by rewrite expr2 mulKf // mulVf.
Qed.

(** *** The outer loop *)


Lemma arnoldi_init_nonzero b :
  b != 0 -> arnoldi_init b = Val (setc 0 0 ((norm2 b)^-1 *: b), 0).
Proof. by move=> Hb; rewrite /arnoldi_init vdiv_nonzero // norm2_eq0. Qed.

Lemma arnoldi_init_inv b V H :
  arnoldi_init b = Val (V, H) -> arnoldi_inv 1 V H.
Proof.
rewrite /arnoldi_init /vdiv; case: ifP => // /negbT Hb [<- <-].
have -> : \col_k (b k 0 / norm2 b) = (norm2 b)^-1 *: b.
  by apply/matrixP=> r c; rewrite !mxE mulrC (ord1 c).
split=> [i j|j Hj Hjm|j _ _]; last exact: getc0.
  have -> : minn 1 m = 1%N.
    by rewrite /minn; case: ltnP => //; rewrite ltnS leqn0 => /eqP ->.
  rewrite !ltnS !leqn0 => /eqP -> /eqP ->.
  by rewrite getc_setc_eq // normalised_unit.
by rewrite getc_setc_neq ?getc0 // -lt0n.
Qed.

End KrylovBasics.

(** ** arnoldi *)

Section ArnoldiTheory.

Import Krylov.
Local Open Scope ring_scope.

Variable C : numClosedFieldType.
Variable m' : nat.
Local Notation m := m'.+1.

Local Arguments arnoldi_body : simpl never.
Local Arguments arnoldi_project : simpl never.

Implicit Types (A V H W : 'M[C]_m) (b w u v : 'cV[C]_m) (i j k : nat).

Lemma minn_lt j : (j < m)%N -> minn j m = j.
Proof. by move=> Hj; apply/minn_idPl/ltnW. Qed.

(** One iteration before the last, in closed form. *)
Lemma arnoldi_body_eq A j V H :
  (0 < j < m)%N ->
  arnoldi_body A j (V, H)
  = let w := (arnoldi_project A V H j).1 in
    let H2 := set (arnoldi_project A V H j).2 j j.-1 (norm2 w) in
    if tol C < norm2 w
    then Val (Next (setc V j ((norm2 w)^-1 *: w), H2))
    else Val (Return (V, H2)).
Proof.
case/andP=> Hj0 Hjm; rewrite /arnoldi_body.
case: (arnoldi_project A V H j) => w H1 /=.
have Hj1 : (j.-1 < m)%N by rewrite prednK // ltnW.
rewrite (ltn_eqF Hjm) /= get_set_eq //; case: ifP => // Htol.
by rewrite vdiv_nonzero // gt_eqF // (lt_trans (tol_gt0 C)).
Qed.

(** The last iteration. *)
Lemma arnoldi_body_last A V H :
  arnoldi_body A m (V, H) = Val (Next (V, (arnoldi_project A V H m).2)).
Proof.
rewrite /arnoldi_body; case: (arnoldi_project A V H m) => w H1 /=.
by rewrite eqxx.
Qed.

Lemma arnoldi_project_zero_from A V H j (x : C) :
  (0 < j)%N -> zero_from H j.-1 ->
  zero_from (set (arnoldi_project A V H j).2 j j.-1 x) j.
Proof.
move=> Hj0 HH k Hjk Hkm.
have Hk : k != j.-1 by rewrite gtn_eqF // prednK.
rewrite getc_set // arnoldi_project_cols // HH //.
exact: leq_trans (leq_pred j) Hjk.
Qed.

Lemma arnoldi_inv_last A V H :
  arnoldi_inv m V H -> arnoldi_inv m.+1 V (arnoldi_project A V H m).2.
Proof.
case=> Hon HV HH; split=> [|k Hk1 Hk2|k Hk1 Hk2].
- have -> : minn m.+1 m = minn m m by rewrite minnn; apply/minn_idPr.
  exact: Hon.
- by move: (leq_trans Hk2 (ltnW Hk1)); rewrite ltnn.
- by move: (leq_trans Hk2 Hk1); rewrite ltnn.
Qed.

Lemma arnoldi_inv_continue A j V H :
  (0 < j < m)%N -> arnoldi_inv j V H ->
  let w := (arnoldi_project A V H j).1 in
  tol C < norm2 w ->
  arnoldi_inv j.+1 (setc V j ((norm2 w)^-1 *: w))
    (set (arnoldi_project A V H j).2 j j.-1 (norm2 w)).
Proof.
move=> Hj [Hon HV HH] w Htol; case/andP: (Hj) => Hj0 Hjm.
have Hh : norm2 w != 0 by rewrite gt_eqF // (lt_trans (tol_gt0 C)).
rewrite minn_lt // in Hon.
have Horth i : (i < j)%N -> vdot (getc V i) w = 0.
  by apply: arnoldi_project_orthogonal => //; rewrite Hj0 ltnW.
split=> [i k|k Hjk Hkm|]; last exact: arnoldi_project_zero_from.
  rewrite (minn_idPl Hjm) !ltnS [(i <= j)%N]leq_eqVlt [(k <= j)%N]leq_eqVlt.
  case/orP=> [/eqP ->|Hi]; case/orP=> [/eqP ->|Hk].
  - by rewrite getc_setc_eq // normalised_unit // eqxx.
  - have Hkm := ltn_trans Hk Hjm.
    rewrite getc_setc_eq // getc_setc_neq ?(ltn_eqF Hk) //.
    by rewrite vdotC vdotZr Horth // mulr0 rmorph0 (gtn_eqF Hk).
  - have Him := ltn_trans Hi Hjm.
    rewrite getc_setc_eq // getc_setc_neq ?(ltn_eqF Hi) //.
    by rewrite vdotZr Horth // mulr0.
  - have Hkm := ltn_trans Hk Hjm.
    have Him := ltn_trans Hi Hjm.
    rewrite !getc_setc_neq ?(ltn_eqF Hi) ?(ltn_eqF Hk) //.
    exact: Hon.
by rewrite getc_setc_neq ?(gtn_eqF Hjk) ?HV // ltnW.
Qed.

(** From the invariant at iteration [j] the loop of [arnoldi] returns, and
    the columns of the returned [V] below some [k] are orthonormal, the
    others zero; [k] is [m] or the iteration of the breakdown. *)
Lemma arnoldi_loop_post A l j V H :
  (0 < j)%N -> (j + l = m.+1)%N -> arnoldi_inv j V H ->
  exists V' H' k,
    [/\ loop_ (arnoldi_body A) (iota j l) (V, H) = Val (V', H'),
        (0 < k <= m)%N, orthonormal_upto V' k, zero_from V' k
      & (k == m) || ~~ (tol C < get H' k k.-1)].
Proof.
elim: l j V H => [|l IH] j V H Hj0 Hjl Hinv.
  rewrite addn0 in Hjl; rewrite Hjl in Hinv; case: Hinv => Hon _ _.
  exists V, H, m; split=> //=.
  - by move: Hon; rewrite (minn_idPr (leqnSn m)).
  - by move=> k Hk1 Hk2; move: (leq_trans Hk2 Hk1); rewrite ltnn.
  - by rewrite eqxx.
have Hjm : (j <= m)%N by rewrite -ltnS -Hjl addnS ltnS leq_addr.
rewrite /=; move: Hjm; rewrite leq_eqVlt => /orP[/eqP Hjm|Hjm].
  rewrite Hjm arnoldi_body_last; apply: IH => //.
    by rewrite addSn -addnS -{1}Hjm Hjl.
  by apply: arnoldi_inv_last; rewrite -Hjm.
have Hj : (0 < j < m)%N by rewrite Hj0.
rewrite arnoldi_body_eq //=; case: ifP => Htol.
  apply: IH => //; first by rewrite addSnnS.
  exact: arnoldi_inv_continue.
case: Hinv => Hon HV _.
exists V, (set (arnoldi_project A V H j).2 j j.-1
             (norm2 (arnoldi_project A V H j).1)), j.
split=> //.
- by rewrite Hj0 ltnW.
- by move: Hon; rewrite minn_lt.
- by rewrite get_set_eq ?Htol ?orbT // prednK // ltnW.
Qed.

Lemma arnoldi_at_inv A b j s :
  arnoldi_at A b j s -> (0 < j <= m.+1)%N /\ arnoldi_inv j s.1 s.2.
Proof.
elim=> {j s} [[V H] Hinit|j [V H] s' _ [/andP[Hj0 _] /= Hinv] Hjm].
  by split=> //; apply: (arnoldi_init_inv Hinit).
move: Hjm; rewrite leq_eqVlt => /orP[/eqP Hjm|Hjm].
  rewrite Hjm arnoldi_body_last => -[<-] /=; split; first by rewrite ltnSn.
  by apply: arnoldi_inv_last; rewrite -Hjm.
have Hj : (0 < j < m)%N by rewrite Hj0.
rewrite arnoldi_body_eq //=; case: ifP => // Htol [<-] /=.
by split; [rewrite ltnS ltnW | apply: arnoldi_inv_continue].
Qed.

Lemma arnoldi_at_run A b j s :
  arnoldi_at A b j s ->
  arnoldi A b = loop_ (arnoldi_body A) (iota j (m.+1 - j)) s.
Proof.
elim=> {j s} [s Hinit|j s s' _ IH Hjm Hbody].
  by rewrite /arnoldi Hinit subn1.
by rewrite IH subSS subSn //= Hbody.
Qed.

(** From the state at the iteration [j] the loop of [arnoldi] returns; the
    [k] columns that it has built are orthonormal; [k < m] is the iteration
    in which the residual failed the test, and [k = m] means that the loop
    has run through. *)
Lemma arnoldi_run_post A b l j V H :
  (j + l = m.+1)%N -> arnoldi_at A b j (V, H) ->
  exists V' H' k,
    [/\ loop_ (arnoldi_body A) (iota j l) (V, H) = Val (V', H'),
        (0 < k <= m)%N, orthonormal_upto V' k, zero_from V' k
      & if (k < m)%N
        then exists H0,
               arnoldi_at A b k (V', H0)
               /\ ~~ (tol C < norm2 (arnoldi_project A V' H0 k).1)
        else arnoldi_at A b m.+1 (V', H')].
Proof.
elim: l j V H => [|l IH] j V H Hjl Hat.
  rewrite addn0 in Hjl; rewrite Hjl in Hat.
  have [_ /= [Hon _ _]] := arnoldi_at_inv Hat.
  exists V, H, m; split.
  - by [].
  - by rewrite ltn0Sn leqnn.
  - by move: Hon; rewrite (minn_idPr (leqnSn m)).
  - by move=> k Hk1 Hk2; move: (leq_trans Hk2 Hk1); rewrite ltnn.
  - by rewrite ltnn.
have [/andP[Hj0 _] /= Hinv] := arnoldi_at_inv Hat.
have Hjm : (j <= m)%N by rewrite -ltnS -Hjl addnS ltnS leq_addr.
have Hjl' : (j.+1 + l = m.+1)%N by rewrite addSnnS.
rewrite /=; move: (Hjm); rewrite leq_eqVlt => /orP[/eqP Hjm1|Hjm1].
  have Hbody : arnoldi_body A j (V, H)
               = Val (Next (V, (arnoldi_project A V H j).2)).
    by rewrite Hjm1 arnoldi_body_last.
  rewrite Hbody; apply: IH => //.
  exact: arnoldi_at_next Hat Hjm Hbody.
have Hj : (0 < j < m)%N by rewrite Hj0.
have Hbody := arnoldi_body_eq A V H Hj; rewrite /= in Hbody.
case Htol: (tol C < norm2 (arnoldi_project A V H j).1) Hbody => Hbody.
  rewrite Hbody; apply: IH => //.
  exact: arnoldi_at_next Hat Hjm Hbody.
rewrite Hbody; case: Hinv => Hon HV _.
exists V, (set (arnoldi_project A V H j).2 j j.-1
             (norm2 (arnoldi_project A V H j).1)), j.
split.
- by [].
- by rewrite Hj0.
- by move: Hon; rewrite minn_lt.
- by [].
- by rewrite Hjm1; exists H; rewrite Htol.
Qed.

(** C2: for a non-zero [b], [arnoldi(A, b)] returns, and the columns of the
    returned [V] that were constructed, those below some [k] with
    [0 < k <= m], are orthonormal in exact arithmetic; the other columns
    are zero.  When [k < m] the call has entered the iteration [k] with the
    returned [V], and the residual of [A V[:, k-1]] against the columns of
    [V] failed the test there: [k] is the iteration of the breakdown.
    When [k = m] the loop has run through all its iterations with the
    returned arrays: without a breakdown all [m] columns are built. *)
Theorem arnoldi_orthonormal A b :
  b != 0 ->
  exists V H k,
    [/\ arnoldi A b = Val (V, H), (0 < k <= m)%N,
        orthonormal_upto V k, zero_from V k
      & if (k < m)%N
        then exists H0,
               arnoldi_at A b k (V, H0)
               /\ ~~ (tol C < norm2 (arnoldi_project A V H0 k).1)
        else arnoldi_at A b m.+1 (V, H)].
Proof.
move=> Hb; have Hinit := arnoldi_init_nonzero Hb.
rewrite /arnoldi Hinit /ebind.
by apply: arnoldi_run_post; [rewrite add1n | apply: arnoldi_at_first].
Qed.

(** C3: when [arnoldi(A, b)] enters an iteration [j < m] with the arrays
    [V] and [H], it stores the norm of [w] in [H[j, j-1]]; if that exceeds
    [1e-12], the quotient [w / H[j, j-1]] becomes the column [j] of [V] and
    the call enters the iteration [j + 1]; otherwise the call returns
    [(V, H)] at once, as a value, and the columns of [V] and of [H] from
    [j] on are zero. *)
Theorem arnoldi_breakdown A b j V H :
  arnoldi_at A b j (V, H) -> (j < m)%N -> arnoldi_step_policy A b j V H.
Proof.
move=> Hat Hjm; rewrite /arnoldi_step_policy.
set w := (arnoldi_project A V H j).1.
set H2 := set _ j j.-1 (norm2 w).
set V2 := setc V j _.
have [/andP[Hj0 _] /= [_ HV HH]] := arnoldi_at_inv Hat.
have Hj : (0 < j < m)%N by rewrite Hj0.
have Hget : get H2 j j.-1 = norm2 w.
  by rewrite /H2 get_set_eq // prednK // ltnW.
have HV2 : V2 = setc V j ((norm2 w)^-1 *: w).
  rewrite /V2 Hget; congr setc.
  by apply/matrixP=> r c; rewrite !mxE mulrC (ord1 c).
have Hbody := arnoldi_body_eq A V H Hj.
rewrite /= -/w -/H2 -HV2 -Hget in Hbody.
split=> // Htol.
  rewrite Htol in Hbody; split=> //; first by rewrite /V2 getc_setc_eq.
  exact: arnoldi_at_next Hat (ltnW Hjm) Hbody.
rewrite (negbTE Htol) in Hbody; split=> //.
  by rewrite (arnoldi_at_run Hat) subSn ?(ltnW Hjm) //= Hbody.
exact: arnoldi_project_zero_from.
Qed.

End ArnoldiTheory.

Section ArnoldiWitnesses.

Import Krylov.
Local Open Scope ring_scope.

Let b2 : 'cV[algC]_2 := const_mx 1.

Lemma b2_neq0 : b2 != 0.
Proof.
apply/eqP=> /matrixP /(_ 0 0); rewrite !mxE => /eqP.
by rewrite oner_eq0.
Qed.

Lemma arnoldi_breakdown_witness :
  let A : 'M[algC]_2 := 1%:M in
  let b : 'cV[algC]_2 := const_mx 1 in
  let V : 'M[algC]_2 := setc 0 0 ((norm2 b)^-1 *: b) in
  [/\ arnoldi_at A b 1 (V, 0), (1 < 2)%N
    & arnoldi_step_policy A b 1 V 0].
Proof.
move=> A b V.
have Hat : arnoldi_at A b 1 (V, 0).
  exact: arnoldi_at_first (arnoldi_init_nonzero b2_neq0).
by split; [exact: Hat | | apply: (arnoldi_breakdown Hat)].
Defined.

End ArnoldiWitnesses.

(** ** lanczos and krylov_expm *)

Section LanczosTheory.

Import Krylov.
Local Open Scope ring_scope.

Variable C : numClosedFieldType.
Variable m' : nat.
Local Notation m := m'.+1.

Local Arguments arnoldi_body : simpl never.
Local Arguments arnoldi_project : simpl never.

Implicit Types (A V H W : 'M[C]_m) (b w u v : 'cV[C]_m) (i j k : nat).

Lemma getv_setv_eq (a : 'cV[C]_m) j (x : C) :
  (j < m)%N -> getv (setv a j x) j = x.
Proof. by move=> Hj; rewrite /getv mxE inordK // eqxx. Qed.

Lemma norm2_0 : norm2 (0 : 'cV[C]_m) = 0.
Proof. by apply/eqP; rewrite norm2_eq0. Qed.

Lemma is_hermitian_1 : is_hermitian (1%:M : 'M[C]_m).
Proof. by rewrite /is_hermitian map_scalar_mx rmorph1 tr_scalar_mx. Qed.

(** The state of [lanczos] before its loop, for the identity matrix: the
    first residual [W[:, 0]] is zero. *)
Lemma lanczos_init_1 b :
  b != 0 ->
  let v0 := (norm2 b)^-1 *: b in
  lanczos_init 1%:M b
  = Val (LanczosState (setc 0 0 v0) (setc 0 0 0) (setv 0 0 1) 0).
Proof.
move=> Hb v0; have Hh : norm2 b != 0 by rewrite norm2_eq0.
rewrite /lanczos_init vdiv_nonzero //= -/v0 getc_setc_eq // mul1mx.
by rewrite normalised_unit // getv_setv_eq // scale1r subrr.
Qed.

(** The iteration [j = 2] on a zero residual divides by [beta[1] = 0]. *)
Lemma lanczos_body_zero_residual A (s : lanczos_state C m') :
  (1 < m)%N -> getc (lz_W s) 0 = 0 ->
  getv (setv (lz_beta s) 1 (norm2 (getc (lz_W s) 0))) 1 = 0
  /\ lanczos_body A 2 s = ZeroDivide 2.
Proof.
move=> Hm HW; rewrite /lanczos_body /= HW norm2_0 getv_setv_eq //.
by rewrite vdiv_zero.
Qed.

(** On the identity matrix of order at least 2, [lanczos] divides by
    [beta[1] = 0] in its first iteration [j = 2], whatever [b] is. *)
Lemma lanczos_identity b :
  (1 < m)%N -> b != 0 -> lanczos 1%:M b = ZeroDivide 2.
Proof.
move=> Hm Hb; rewrite /lanczos lanczos_init_1 // /ebind.
have -> : iota 2 m' = 2 :: iota 3 m'.-1 by rewrite -{1}(prednK Hm).
rewrite [loop_ _ _ _]/=.
set s := LanczosState _ _ _ _.
have HW : getc (lz_W s) 0 = 0 by rewrite getc_setc_eq.
by have [_ ->] := lanczos_body_zero_residual 1%:M Hm HW.
Qed.



(** *** The run of [lanczos] *)

Local Arguments lanczos_body : simpl never.






Variable expm : 'M[C]_m -> 'M[C]_m.


End LanczosTheory.

(** C4: in every order [n >= 2] the identity matrix [A], which is
    Hermitian, and the first vector [b] of the standard basis, for which
    [A b = b] and the Krylov subspace is the line of [b], are such that
    [lanczos(A, b)] enters its loop, finds [beta[1] = 0] in the iteration
    [j = 2] and divides [W[:, 0]] by it: nothing guards the division. *)
Theorem lanczos_unguarded_division (C : numClosedFieldType) (n' : nat) :
  let A : 'M[C]_n'.+2 := 1%:M%R in
  let b : 'cV[C]_n'.+2 := delta_mx 0%R 0%R in
  exists s : Krylov.lanczos_state C n'.+1,
    [/\ Krylov.is_hermitian A, b != 0%R /\ (A *m b)%R = b,
        Krylov.lanczos_init A b = Val s,
        Krylov.getv
          (Krylov.setv (Krylov.lz_beta s) 1
             (Krylov.norm2 (Krylov.getc (Krylov.lz_W s) 0))) 1 = 0%R
      & Krylov.lanczos_body A 2 s = ZeroDivide 2
        /\ Krylov.lanczos A b = ZeroDivide 2].
Proof.
move=> A b.
have Hb : b != 0%R.
  apply/eqP=> /matrixP /(_ 0%R 0%R); rewrite !mxE !eqxx => /eqP.
  by rewrite oner_eq0.
pose s := Krylov.LanczosState
            (Krylov.setc 0 0 ((Krylov.norm2 b)^-1 *: b))%R
            (Krylov.setc 0 0 0)%R (Krylov.setv 0 0 1)%R (0%R : 'cV[C]_n'.+2).
have Hinit : Krylov.lanczos_init A b = Val s := lanczos_init_1 Hb.
have HW : Krylov.getc (Krylov.lz_W s) 0 = 0%R by rewrite getc_setc_eq.
have [Hbeta Hbody] := lanczos_body_zero_residual A (isT : 1 < n'.+2) HW.
exists s; split=> //; first exact: is_hermitian_1.
- by rewrite /A mul1mx.
- by split=> //; apply: lanczos_identity.
Qed.

(** ** Runs of order 2 and 3 *)

Section KrylovExample.

Import Krylov.
Local Open Scope ring_scope.

Variable C : numClosedFieldType.

Local Arguments arnoldi_body : simpl never.
Local Arguments arnoldi_project : simpl never.

Lemma norm2_delta m' (i : 'I_m'.+1) :
  norm2 (delta_mx i 0 : 'cV[C]_m'.+1) = 1.
Proof.
have H0 (k : 'I_m'.+1) :
    k != i -> `|(delta_mx i 0 : 'cV[C]_m'.+1) k 0| ^+ 2 = 0.
  by move=> Hk; rewrite mxE (negbTE Hk) normr0 expr0n.
rewrite /norm2 (bigD1 i) //= (big1 _ _ _ H0) mxE !eqxx normr1 expr1n addr0.
exact: sqrtC1.
Qed.

Lemma delta_neq0 m' (i : 'I_m'.+1) : (delta_mx i 0 : 'cV[C]_m'.+1) != 0.
Proof. by rewrite -norm2_eq0 norm2_delta oner_eq0. Qed.

Lemma tol_lt1 : tol C < 1.
Proof. by rewrite /tol invf_lt1 ?exprn_gt0 ?ltr0n // exprn_egt1 // ltr1n. Qed.

Let J2 : 'M[C]_2 := \matrix_(r, k) (r != k)%:R.
Let e0 : 'cV[C]_2 := delta_mx 0 0.
Let e1 : 'cV[C]_2 := delta_mx 1 0.

Lemma exchange_e0 : J2 *m e0 = e1.
Proof.
apply/matrixP=> r k; rewrite !mxE !big_ord_recl big_ord0 !mxE (ord1 k) /=.
by rewrite mulr1 !mulr0 !addr0 andbT; case: r => [[|[|r]]].
Qed.

Lemma vdot_e0_e1 : vdot e0 e1 = 0.
Proof.
by rewrite /vdot !big_ord_recl big_ord0 !mxE /= mulr0 rmorph0 mul0r !addr0.
Qed.

Lemma exchange_project (H : 'M[C]_2) :
  (arnoldi_project J2 (setc 0 0 e0) H 1).1 = e1.
Proof.
rewrite /arnoldi_project /= get_set_eq // getc_setc_eq // exchange_e0.
by rewrite vdot_e0_e1 scale0r subr0.
Qed.

(** [arnoldi] on the exchange matrix and the first basis vector builds the
    two basis vectors. *)
Lemma arnoldi_exchange :
  exists H, arnoldi J2 e0 = Val (setc (setc 0 0 e0) 1 e1, H).
Proof.
rewrite /arnoldi (arnoldi_init_nonzero (delta_neq0 _)) /ebind.
rewrite norm2_delta invr1 scale1r.
have -> : iota 1 2 = [:: 1; 2]%N by [].
rewrite [loop_ _ _ _]/= arnoldi_body_eq //; cbv zeta; rewrite exchange_project.
rewrite norm2_delta tol_lt1 invr1 scale1r arnoldi_body_last.
by eexists.
Qed.

Lemma vdot_e1_e0 : vdot e1 e0 = 0.
Proof.
by rewrite /vdot !big_ord_recl big_ord0 !mxE /= rmorph0 mul0r mulr0 !addr0.
Qed.

Local Arguments lanczos_body : simpl never.

(** [lanczos] on the same input divides by [beta[1] = 1] and returns. *)
Lemma lanczos_exchange : exists V H, lanczos J2 e0 = Val (V, H).
Proof.
rewrite /lanczos /lanczos_init vdiv_nonzero ?norm2_delta ?oner_eq0 //.
rewrite invr1 scale1r /ebind.
set s0 := LanczosState _ _ _ _.
have HW : getc (lz_W s0) 0 = e1.
  rewrite /s0 /= getc_setc_eq // getv_setv_eq // getc_setc_eq //.
  by rewrite exchange_e0 vdot_e1_e0 scale0r subr0.
have [s1 Hs1] : exists s1, lanczos_body J2 2 s0 = Val (Next s1).
  rewrite /lanczos_body [2.-2]/= [2.-1]/= HW getv_setv_eq // norm2_delta.
  by rewrite vdiv_nonzero ?oner_eq0 //=; eexists.
have -> : iota 2 1 = [:: 2]%N by [].
by rewrite [loop_ _ _ _]/= Hs1; eexists; eexists.
Qed.




Lemma loop_next (S : Type) (body : nat -> S -> exact (flow S)) j js s s' :
  body j s = Val (Next s') -> loop_ body (j :: js) s = loop_ body js s'.
Proof. by move=> /= ->. Qed.

Lemma mulmx_delta m' (A : 'M[C]_m'.+1) (k : 'I_m'.+1) :
  A *m delta_mx k 0 = col k A.
Proof.
apply/matrixP=> r c; rewrite !mxE (ord1 c).
have H0 (i : 'I_m'.+1) :
    i != k -> A r i * (delta_mx k 0 : 'cV[C]_m'.+1) i 0 = 0.
  by move=> Hi; rewrite mxE (negbTE Hi) mulr0.
by rewrite (bigD1 k) //= (big1 _ _ _ H0) mxE !eqxx mulr1 addr0.
Qed.

Lemma vdot_delta m' (i j : 'I_m'.+1) :
  vdot (delta_mx i 0 : 'cV[C]_m'.+1) (delta_mx j 0) = (i == j)%:R.
Proof.
have H0 (k : 'I_m'.+1) : k != i ->
    ((delta_mx i 0 : 'cV[C]_m'.+1) k 0)^* * (delta_mx j 0 : 'cV[C]_m'.+1) k 0
    = 0.
  by move=> Hk; rewrite mxE (negbTE Hk) rmorph0 mul0r.
rewrite /vdot (bigD1 i) //= (big1 _ _ _ H0) addr0 !mxE !eqxx rmorph1 mul1r.
by rewrite andbT.
Qed.

(** The residual of the inner loop does not depend on [H]. *)
Lemma arnoldi_project_w m' (A V H : 'M[C]_m'.+1) j :
  (0 < j <= m'.+1)%N ->
  (arnoldi_project A V H j).1
  = foldl (mgs_w V) (A *m getc V j.-1) (iota 1 j).
Proof. by move=> Hj; rewrite /arnoldi_project arnoldi_inner_w. Qed.

Lemma mgs_w_fixed m' (V : 'M[C]_m'.+1) w (s : seq nat) :
  (forall i, i \in s -> vdot (getc V i.-1) w = 0) ->
  foldl (mgs_w V) w s = w.
Proof.
elim: s => [|i s IH] //= Hs.
rewrite /mgs_w Hs ?mem_head // scale0r subr0.
by apply: IH => k Hk; apply: Hs; rewrite in_cons Hk orbT.
Qed.

(** The cyclic shift of order 3, which sends the basis vector [e_k] to
    [e_(k+1)]. *)
Let P3 : 'M[C]_3 := \matrix_(r, k) ((r : nat) == (k.+1 %% 3)%N)%:R.
Let e3 (k : nat) : 'cV[C]_3 := delta_mx (inord k) 0.

Lemma shift_e3 k : (k < 3)%N -> P3 *m e3 k = e3 (k.+1 %% 3).
Proof.
move=> Hk; rewrite mulmx_delta; apply/matrixP=> r c.
by rewrite !mxE (ord1 c) andbT -val_eqE /= !inordK // ltn_mod.
Qed.

Lemma vdot_e3 i j : (i < 3)%N -> (j < 3)%N -> vdot (e3 i) (e3 j) = (i == j)%:R.
Proof. by move=> Hi Hj; rewrite vdot_delta -val_eqE /= !inordK. Qed.

Lemma shift_project (V H : 'M[C]_3) j :
  (0 < j < 3)%N -> (forall i, (i < j)%N -> getc V i = e3 i) ->
  (arnoldi_project P3 V H j).1 = e3 j.
Proof.
case/andP=> Hj0 Hj3 HV.
have Hj1 : (j.-1 < j)%N by rewrite prednK.
rewrite arnoldi_project_w ?Hj0 ?(ltnW Hj3) // HV // shift_e3 ?(ltn_trans Hj1) //.
rewrite prednK // modn_small //; apply: mgs_w_fixed => i.
rewrite mem_iota add1n ltnS => /andP[Hi0 Hij].
have Hi : (i.-1 < j)%N by rewrite prednK.
by rewrite HV // vdot_e3 ?(ltn_trans Hi) // ltn_eqF.
Qed.

Lemma e3_0 : delta_mx 0 0 = e3 0.
Proof. by congr delta_mx; apply: val_inj; rewrite /= inordK. Qed.

(** [arnoldi] on the cyclic shift and the first basis vector runs through
    its three iterations and builds the three basis vectors. *)
Lemma arnoldi_shift :
  exists H,
    arnoldi P3 (delta_mx 0 0)
    = Val (setc (setc (setc 0 0 (e3 0)) 1 (e3 1)) 2 (e3 2), H).
Proof.
rewrite /arnoldi (arnoldi_init_nonzero (delta_neq0 _)) /ebind.
rewrite norm2_delta invr1 scale1r e3_0.
set V0 := setc 0 0 (e3 0); set V1 := setc V0 1 (e3 1).
have HV0 i : (i < 1)%N -> getc V0 i = e3 i.
  by case: i => // _; rewrite getc_setc_eq.
have HV1 i : (i < 2)%N -> getc V1 i = e3 i.
  case: i => [|[|]] // _; last by rewrite getc_setc_eq.
  by rewrite getc_setc_neq // getc_setc_eq.
have -> : iota 1 3 = [:: 1; 2; 3]%N by [].
have H12 : (0 < 1 < 3)%N by [].
have H23 : (0 < 2 < 3)%N by [].
have [H1 Hb1] : exists H1, arnoldi_body P3 1 (V0, 0) = Val (Next (V1, H1)).
  rewrite arnoldi_body_eq //; cbv zeta; rewrite (shift_project _ H12 HV0).
  by rewrite norm2_delta tol_lt1 invr1 scale1r; eexists.
rewrite (loop_next _ Hb1).
have [H2 Hb2] :
    exists H2, arnoldi_body P3 2 (V1, H1) = Val (Next (setc V1 2 (e3 2), H2)).
  rewrite arnoldi_body_eq //; cbv zeta; rewrite (shift_project _ H23 HV1).
  by rewrite norm2_delta tol_lt1 invr1 scale1r; eexists.
rewrite (loop_next _ Hb2) (loop_next _ (arnoldi_body_last _ _ _)) /=.
by eexists.
Qed.


End KrylovExample.

Section KrylovWitnesses.

Import Krylov.
Local Open Scope ring_scope.

(** On the cyclic shift of order 3 and the first basis vector the loop of
    [arnoldi] runs through: the three columns of [V] are orthonormal. *)
Lemma arnoldi_orthonormal_witness :
  let A : 'M[algC]_3 := \matrix_(r, k) ((r : nat) == (k.+1 %% 3)%N)%:R in
  let b : 'cV[algC]_3 := delta_mx 0 0 in
  b != 0 /\
  exists V H,
    [/\ arnoldi A b = Val (V, H), orthonormal_upto V 3,
        vdot (getc V 0) (getc V 1) = 0 & arnoldi_at A b 4 (V, H)].
Proof.
move=> A b; have Hb : b != 0 := delta_neq0 algC _.
split=> //.
have [V [H [k [E /andP[Hk0 Hk3] Hon Hz Hrun]]]] := arnoldi_orthonormal A Hb.
have [H' E'] := arnoldi_shift algC.
have HV : V = setc (setc (setc 0 0 (delta_mx (inord 0) 0)) 1
                        (delta_mx (inord 1) 0)) 2 (delta_mx (inord 2) 0).
  by have [-> _] := etrans (esym E) E'.
have Hk : k = 3.
  apply/eqP; rewrite eqn_leq Hk3 /= ltnNge; apply/negP=> Hk2.
  have := Hz 2 Hk2 isT; rewrite HV getc_setc_eq // => /eqP.
  by rewrite (negbTE (delta_neq0 algC _)).
move: Hon Hrun; rewrite Hk ltnn => Hon Hrun.
by exists V, H; split=> //; rewrite Hon.
Defined.



End KrylovWitnesses.

(* ===================================================================== *)
(** * Part III: further properties                                        *)
(* ===================================================================== *)

(** ** Further properties of integrate and pre_integrate *)

Section IntegrateTheory.

Import Integrate.
Local Open Scope ring_scope.

Variable R : fieldType.
Variable leggauss : nat -> seq R * seq R.
Variable quad : pyval R -> R -> R -> result (pyval R).

(** In the last iteration of the loop of either branch the read of
    [tlist[i+1]] is out of range before the integrator is called. *)
Lemma pre_integrate_loop_raises integ (H_coeff : pyval R) (t : R) (ts : seq R) :
  exists e,
    for_ (pre_integrate_body integ H_coeff (t :: ts))
         (iota 0 (size (t :: ts))) [::] = Raise e.
Proof.
rewrite [size _]/= -[(size ts).+1]addn1 iotaD add0n cats1.
exact: (@for_last_raises _ _ (size ts) (iota 0 (size ts))
          (pre_integrate_body_last integ H_coeff t ts)).
Qed.

(** X1: with either known method, [pre_integrate] returns a value on the empty
    time grid only, and then the empty list; on every other grid it
    raises. *)
Theorem pre_integrate_known_method (H_coeff : pyval R) (tlist : seq R)
    (method : string) :
  method = "scipy"%string \/ method = "me"%string ->
  (tlist = [::] ->
   pre_integrate leggauss quad H_coeff tlist method = ([::], Ret (VList [::])))
  /\ (tlist <> [::] ->
      exists e, pre_integrate leggauss quad H_coeff tlist method
                = ([::], Raise e)).
Proof.
move=> Hm; split=> [->|]; first by case: Hm => ->.
case: tlist => // t ts _; rewrite /pre_integrate.
case: Hm => ->.
  rewrite (_ : String.eqb "scipy" "scipy" = true) //.
  by have [e ->] := pre_integrate_loop_raises quad H_coeff t ts; exists e.
rewrite (_ : String.eqb "me" "scipy" = false) //.
rewrite (_ : String.eqb "me" "me" = true) //.
have [e ->] := pre_integrate_loop_raises
                 (fun f a b => let! v := integrate leggauss f a b 100 in
                               Ret (VNum v)) H_coeff t ts.
by exists e.
Qed.

Local Arguments item : simpl never.

Lemma item_nth (T : Type) (x0 : T) (s : seq T) (i : nat) :
  (i < size s)%N -> item s i = Ret (nth x0 s i).
Proof. by elim: s i => [|y s IH] [|i] //; rewrite /item -/item => /IH. Qed.

(** The accumulating loop of [integrate] on a table that is long enough and
    a callable that returns. *)
Lemma integrate_loop (f : R -> R) (h c : R) (x w : seq R) (l j : nat) (acc : R) :
  (j + l <= size x)%N -> (j + l <= size w)%N ->
  for_ (fun i val =>
          let! wi := item w i in
          let! xi := item x i in
          let! y := call (VFun (fun t => Ret (f t))) (h * xi + c) in
          Ret (val + wi * y))
       (iota j l) acc
  = Ret (acc + \sum_(j <= i < j + l) nth 0 w i * f (h * nth 0 x i + c)).
Proof.
elim: l j acc => [|l IH] j acc Hx Hw /=.
  by rewrite addn0 big_geq // addr0.
have Hjw : (j < size w)%N by rewrite (leq_trans _ Hw) // addnS ltnS leq_addr.
have Hjx : (j < size x)%N by rewrite (leq_trans _ Hx) // addnS ltnS leq_addr.
rewrite (@item_nth R 0 w j Hjw) (@item_nth R 0 x j Hjx) /=.
rewrite -addSnnS in Hx Hw *.
rewrite (IH j.+1 _ Hx Hw) [in RHS]big_ltn ?addrA //.
by rewrite addSn ltnS leq_addr.
Qed.

(** The value of [integrate] in closed form. *)
Lemma integrate_closed_form (f : R -> R) (a b : R) (deg : nat)
    (x w : seq R) :
  leggauss deg = (x, w) -> size x = deg -> size w = deg ->
  integrate leggauss (VFun (fun t => Ret (f t))) a b deg
  = Ret ((\sum_(0 <= i < deg)
            nth 0 w i * f ((b - a) / 2%:R * nth 0 x i + (a + b) / 2%:R))
         * ((b - a) / 2%:R)).
Proof.
move=> Hleg Hx Hw; rewrite /integrate Hleg.
by rewrite integrate_loop ?add0n ?Hx ?Hw //= add0r.
Qed.

(** X2: on a table of [deg] nodes and weights and a callable that returns,
    [integrate(f, a, b, deg)] is the weighted sum of the values of [f] at
    the nodes mapped to [[a, b]], times the half-width. *)
Theorem integrate_weighted_sum (f : R -> R) (a b : R) (deg : nat)
    (x w : seq R) :
  leggauss deg = (x, w) -> size x = deg -> size w = deg ->
  integrate leggauss (VFun (fun t => Ret (f t))) a b deg
  = Ret ((\sum_(0 <= i < deg)
            nth 0 w i * f ((b - a) / 2%:R * nth 0 x i + (a + b) / 2%:R))
         * ((b - a) / 2%:R)).
Proof. exact: integrate_closed_form. Qed.

(** X3: over an interval of width zero the integral is zero. *)
Theorem integrate_zero_width (f : R -> R) (a : R) (deg : nat) (x w : seq R) :
  leggauss deg = (x, w) -> size x = deg -> size w = deg ->
  integrate leggauss (VFun (fun t => Ret (f t))) a a deg = Ret 0.
Proof.
move=> Hleg Hx Hw; rewrite (integrate_closed_form f a a Hleg Hx Hw).
by rewrite subrr mul0r mulr0.
Qed.

(** X4: when the weights add up to 2, as those of a Gauss-Legendre rule do, a
    constant is integrated exactly. *)
Theorem integrate_constant (k a b : R) (deg : nat) (x w : seq R) :
  (2%:R : R) != 0 ->
  leggauss deg = (x, w) -> size x = deg -> size w = deg ->
  \sum_(0 <= i < deg) nth 0 w i = 2%:R ->
  integrate leggauss (VFun (fun _ => Ret k)) a b deg = Ret (k * (b - a)).
Proof.
move=> H2 Hleg Hx Hw Hsum.
rewrite (integrate_closed_form (fun _ => k) a b Hleg Hx Hw).
by rewrite -mulr_suml Hsum [2%:R * k]mulrC -mulrA [2%:R * _]mulrC divfK.
Qed.

(** X5: an exception of the callable at the first node leaves [integrate]. *)
Theorem integrate_propagates (g : R -> result R) (a b : R) (deg : nat)
    (x0 w0 : R) (x w : seq R) (e : exn) :
  leggauss deg = (x0 :: x, w0 :: w) -> (0 < deg)%N ->
  g ((b - a) / 2%:R * x0 + (a + b) / 2%:R) = Raise e ->
  integrate leggauss (VFun g) a b deg = Raise e.
Proof.
move=> Hleg Hdeg Hg; rewrite /integrate Hleg.
by case: deg Hdeg {Hleg} => // deg _; rewrite /= Hg.
Qed.

End IntegrateTheory.

Section IntegrateWitnesses.

Import Integrate.
Local Open Scope ring_scope.

(** The Gauss-Legendre rule of degree 1: the node 0 with the weight 2. *)
Let gl1 (deg : nat) : seq rat * seq rat := ([:: 0], [:: 2%:R]).
Let quad0 (f : pyval rat) (a b : rat) : result (pyval rat) := Raise TypeError.

Lemma pre_integrate_known_method_witness :
  [/\ "me"%string = "scipy"%string \/ "me"%string = "me"%string,
      pre_integrate gl1 quad0 (VList [::]) [::] "me" = ([::], Ret (VList [::]))
    & exists e, pre_integrate gl1 quad0 (VList [::]) [:: 0; 1] "me"
                = ([::], Raise e)].
Proof.
have Hm : "me"%string = "scipy"%string \/ "me"%string = "me"%string.
  by right.
have [H0 _] := pre_integrate_known_method gl1 quad0 (VList [::]) [::] Hm.
have [_ H1] := pre_integrate_known_method gl1 quad0 (VList [::]) [:: 0; 1] Hm.
by split; [exact: Hm | exact: H0 | exact: H1].
Defined.

Lemma integrate_weighted_sum_witness :
  [/\ gl1 1 = ([:: 0], [:: 2%:R]), size [:: (0 : rat)] = 1%N,
      size [:: (2%:R : rat)] = 1%N
    & integrate gl1 (VFun (fun t => Ret t)) 0 1 1
      = Ret ((\sum_(0 <= i < 1)
                nth 0 [:: 2%:R] i
                * ((1 - 0) / 2%:R * nth 0 [:: 0] i + (0 + 1) / 2%:R))
             * ((1 - 0) / 2%:R))].
Proof.
by split; [| | | apply: (@integrate_weighted_sum _ gl1 (fun t => t))].
Defined.

Lemma integrate_zero_width_witness :
  [/\ gl1 1 = ([:: 0], [:: 2%:R]), size [:: (0 : rat)] = 1%N,
      size [:: (2%:R : rat)] = 1%N
    & integrate gl1 (VFun (fun t => Ret t)) 1 1 1 = Ret 0].
Proof.
by split; [| | |
  apply: (@integrate_zero_width _ gl1 (fun t => t) 1 1 [:: 0] [:: 2%:R])].
Defined.

Lemma integrate_constant_witness :
  [/\ (2%:R : rat) != 0,
      gl1 1 = ([:: 0], [:: 2%:R]) /\ size [:: (0 : rat)] = 1%N,
      size [:: (2%:R : rat)] = 1%N,
      \sum_(0 <= i < 1) nth 0 [:: (2%:R : rat)] i = 2%:R
    & integrate gl1 (VFun (fun _ => Ret 3%:R)) 0 1 1 = Ret (3%:R * (1 - 0))].
Proof.
have Hsum : \sum_(0 <= i < 1) nth 0 [:: (2%:R : rat)] i = 2%:R.
  by rewrite big_nat1.
by split; [| | | exact: Hsum
          | apply: (@integrate_constant _ gl1 3%:R 0 1 1 [:: 0] [:: 2%:R])].
Defined.

Lemma integrate_propagates_witness :
  [/\ gl1 1 = ([:: 0], [:: 2%:R]), (0 < 1)%N,
      (fun _ : rat => Raise ValueError : result rat)
        ((1 - 0) / 2%:R * 0 + (0 + 1) / 2%:R) = Raise ValueError
    & integrate gl1 (VFun (fun _ => Raise ValueError)) 0 1 1
      = Raise ValueError].
Proof.
by split; [| | | apply: (@integrate_propagates _ gl1 _ 0 1 1 0 2%:R [::] [::])].
Defined.

End IntegrateWitnesses.
(** ** Further properties of vec and unvec *)

Section VectoriseMore.

Import Misc.

Variable T : Type.

Implicit Types (r v : seq T) (rows cols : seq (seq T)) (c : option Z).

Lemma all_size_shape (k n : nat) (ss : seq (seq T)) :
  shape ss = nseq n k -> all (fun s => size s == k) ss.
Proof.
by elim: ss n => [|s ss IH] [|n] //= [-> /IH ->]; rewrite eqxx.
Qed.

(** The runs of [c'] elements of a vector of [c' * n'] elements. *)
Lemma well_shaped_reshape v (c' n' : nat) :
  c' * n' = size v -> well_shaped n' c' (reshape (nseq n' c') v).
Proof.
move=> Hsz; rewrite /well_shaped size_reshape size_nseq eqxx /=.
by apply: (@all_size_shape c' n'); rewrite reshapeKl // sumn_nseq Hsz.
Qed.

Lemma well_shaped_transpose nr nc rows :
  well_shaped nr nc rows -> well_shaped nc nr (transpose nc rows).
Proof.
case/andP=> /eqP <- Hrows.
by rewrite /well_shaped size_transpose // eqxx all_size_transpose.
Qed.

(** What [reshape_F] returns when it returns. *)
Lemma reshape_F_ret v (c n : Z) a :
  reshape_F v c n = Ret a ->
  exists c' n' : nat,
    a = Arr2 c' n' (transpose c' (reshape (nseq n' c') v))
    /\ c' * n' = size v.
Proof.
rewrite /reshape_F; case: ifP => // _; case: eqP => //= Hsz [<-].
by exists (Z.to_nat c), (Z.to_nat n).
Qed.

(** What [unvec] returns when it returns an array. *)
Lemma unvec_ret v c a :
  (unvec v c).2 = Ret (Some a) ->
  a = Arr1 v
  \/ exists c' n' : nat,
       a = Arr2 c' n' (transpose c' (reshape (nseq n' c') v))
       /\ c' * n' = size v.
Proof.
have Hres k : unvec_reshape v k = Ret (Some a) ->
    exists c' n' : nat,
      a = Arr2 c' n' (transpose c' (reshape (nseq n' c') v))
      /\ c' * n' = size v.
  rewrite /unvec_reshape; case: ifP => // _.
  case E: (reshape_F v k _) => [a'|] //= [<-].
  exact: reshape_F_ret E.
rewrite /unvec; case: ifP => _; first by case: ifP => //= _ [<-]; left.
case: c => [k|]; last by case: ifP => //= _ /Hres; right.
by case: ifP => // _; case: ifP => //= _ /Hres; right.
Qed.

(** X6: flattening what [unvec] returns gives the vector back. *)
Theorem vec_unvec v c a : (unvec v c).2 = Ret (Some a) -> vec a = v.
Proof.
case/unvec_ret=> [->|[c' [n' [-> Hsz]]]] //; rewrite /vec /=.
rewrite (transposeK (well_shaped_reshape Hsz)) reshapeKr //.
by rewrite sumn_nseq Hsz.
Qed.

(** X7: a matrix that [unvec] returns has the shape that it carries, and as
    many entries as the vector. *)
Theorem unvec_shape v c (nr nc : nat) rows :
  (unvec v c).2 = Ret (Some (Arr2 nr nc rows)) ->
  well_shaped nr nc rows /\ nr * nc = size v.
Proof.
case/unvec_ret=> [//|[c' [n' [[-> -> ->] Hsz]]]]; split=> //.
exact: well_shaped_transpose (well_shaped_reshape Hsz).
Qed.

(** X8: with the number of rows as [c], [unvec] undoes [vec] on every matrix
    with rows and an even number of entries. *)
Theorem unvec_vec_rows (nr nc : nat) rows :
  0 < nr -> ~~ odd (nr * nc) -> well_shaped nr nc rows ->
  unvec (vec (Arr2 nr nc rows)) (Some (Z.of_nat nr))
  = ([::], Ret (Some (Arr2 nr nc rows))).
Proof.
move=> Hnr Heven Hw; rewrite /unvec modn2_neq0 (size_vec Hw) (negbTE Heven).
have Hnr0 : Z.of_nat nr <> Z0 by move/ltP: Hnr; lia.
have -> : (Z.of_nat nr =? 0)%coqZ = false by apply/Z.eqb_neq.
have Hdiv : divides (Z.of_nat nr) (nr * nc).
  by exists (Z.of_nat nc); rewrite -multE Nat2Z.inj_mul Z.mul_comm.
rewrite (introT (quotient_is_integerP _ Hnr0) Hdiv) /=.
rewrite /unvec_reshape (size_vec Hw).
have -> : (Z.of_nat nr =? 0)%coqZ = false by apply/Z.eqb_neq.
have -> : Z.quot (Z.of_nat (nr * nc)) (Z.of_nat nr) = Z.of_nat nc.
  by rewrite -multE Nat2Z.inj_mul Z.mul_comm Z.quot_mul.
by rewrite reshape_F_vec.
Qed.

(** X9: with [c = 0], and without [c] on the empty vector, the number of
    columns is a quotient by zero. *)
Theorem unvec_zero_division v :
  ~~ odd (size v) ->
  unvec v (Some Z0) = ([::], Raise ZeroDivisionError)
  /\ (size v = 0 -> unvec v None = ([::], Raise ZeroDivisionError)).
Proof.
move=> Heven; rewrite /unvec modn2_neq0 (negbTE Heven) /=; split=> // Hv.
by rewrite Hv.
Qed.


Lemma nth_conses (x0 : T) r cols (i : nat) :
  i < size r -> i < size cols ->
  nth [::] [seq p.1 :: p.2 | p <- zip r cols] i
  = nth x0 r i :: nth [::] cols i.
Proof.
by elim: r cols i => [|x r IH] [|s cols] [|i] //= Hr Hc; rewrite IH.
Qed.

(** The entry [(i, j)] of the transpose is the entry [(j, i)]. *)
Lemma nth_transpose (x0 : T) (nc : nat) rows (i j : nat) :
  all (fun s => size s == nc) rows -> i < nc -> j < size rows ->
  nth x0 (nth [::] (transpose nc rows) i) j = nth x0 (nth [::] rows j) i.
Proof.
elim: rows j => [|r rows IH] [|j] //= /andP[/eqP Hr Hrows] Hi Hj.
  by rewrite (nth_conses x0) ?Hr ?size_transpose.
by rewrite (nth_conses x0) ?Hr ?size_transpose //= IH.
Qed.

Lemma sumn_take_nseq (k n j : nat) :
  j <= n -> sumn (take j (nseq n k)) = j * k.
Proof.
by elim: n j => [|n IH] [|j] //=; rewrite ltnS mulSn => /IH ->.
Qed.

(** X11: column-major order: the entry [(i, j)] of the matrix of [unvec] is the
    element [i + j * nr] of the vector. *)
Theorem unvec_entries (x0 : T) v c (nr nc : nat) rows (i j : nat) :
  (unvec v c).2 = Ret (Some (Arr2 nr nc rows)) -> i < nr -> j < nc ->
  nth x0 (nth [::] rows i) j = nth x0 v (i + j * nr).
Proof.
case/unvec_ret=> [//|[c' [n' [[-> -> ->] Hsz]]]] Hi Hj.
have /andP[/eqP Hsize Hall] := well_shaped_reshape Hsz.
rewrite nth_transpose ?Hsize // nth_reshape nth_nseq Hj.
by rewrite sumn_take_nseq ?(ltnW Hj) // nth_take // nth_drop addnC mulnC.
Qed.

End VectoriseMore.

Section VectoriseWitnesses.

Import Misc.

Let v6 : seq nat := [:: 1; 2; 3; 4; 5; 6].
Let m23 : seq (seq nat) := [:: [:: 1; 3; 5]; [:: 2; 4; 6]].

Lemma unvec_v6 : (unvec v6 (Some 2%coqZ)).2 = Ret (Some (Arr2 2 3 m23)).
Proof. by []. Qed.

Lemma vec_unvec_witness :
  (unvec [:: 1; 2; 3; 4; 5; 6] (Some 2%coqZ)).2
  = Ret (Some (Arr2 2 3 [:: [:: 1; 3; 5]; [:: 2; 4; 6]]))
  /\ vec (Arr2 2 3 [:: [:: 1; 3; 5]; [:: 2; 4; 6]]) = [:: 1; 2; 3; 4; 5; 6].
Proof. by split; [exact: unvec_v6 | apply: (vec_unvec unvec_v6)]. Defined.

Lemma unvec_shape_witness :
  (unvec [:: 1; 2; 3; 4; 5; 6] (Some 2%coqZ)).2
  = Ret (Some (Arr2 2 3 [:: [:: 1; 3; 5]; [:: 2; 4; 6]]))
  /\ (well_shaped 2 3 [:: [:: 1; 3; 5]; [:: 2; 4; 6]]
      /\ 2 * 3 = size [:: 1; 2; 3; 4; 5; 6]).
Proof. by split; [exact: unvec_v6 | apply: (unvec_shape unvec_v6)]. Defined.

Lemma unvec_entries_witness :
  [/\ (unvec [:: 1; 2; 3; 4; 5; 6] (Some 2%coqZ)).2
      = Ret (Some (Arr2 2 3 [:: [:: 1; 3; 5]; [:: 2; 4; 6]])),
      1 < 2, 2 < 3
    & nth 0 (nth [::] [:: [:: 1; 3; 5]; [:: 2; 4; 6]] 1) 2
      = nth 0 [:: 1; 2; 3; 4; 5; 6] (1 + 2 * 2)].
Proof.
by split; [exact: unvec_v6 | | | apply: (unvec_entries 0 unvec_v6)].
Defined.

Lemma unvec_vec_rows_witness :
  [/\ 0 < 2, ~~ odd (2 * 3), well_shaped 2 3 [:: [:: 1; 2; 3]; [:: 4; 5; 6]]
    & unvec (vec (Arr2 2 3 [:: [:: 1; 2; 3]; [:: 4; 5; 6]]))
        (Some (Z.of_nat 2))
      = ([::], Ret (Some (Arr2 2 3 [:: [:: 1; 2; 3]; [:: 4; 5; 6]])))].
Proof. by split; [| | | apply: unvec_vec_rows]. Defined.

Lemma unvec_zero_division_witness :
  [/\ ~~ odd (size ([::] : seq nat)),
      unvec ([::] : seq nat) (Some Z0) = ([::], Raise ZeroDivisionError)
    & unvec ([::] : seq nat) None = ([::], Raise ZeroDivisionError)].
Proof.
have [H0 HN] := unvec_zero_division (v := ([::] : seq nat)) isT.
by split; [| exact: H0 | exact: HN].
Defined.


End VectoriseWitnesses.

(** ** Further properties of pade_expm *)

Section PadeMore.

Import Pade.
Local Open Scope ring_scope.

Variable F : numFieldType.
Variable n' : nat.
Local Notation n := n'.+1.

Implicit Types (A D N : 'M[F]_n) (p q i : nat).

Lemma fact_neq0 (k : nat) : (k`!%:R : F) != 0.
Proof. by rewrite pnatr_eq0 -lt0n fact_gt0. Qed.

(** The coefficient of [A^0] is 1 in both sums. *)
Lemma pade_c0 p q : pade_c F p q 0 = 1.
Proof.
rewrite /pade_c !subn0 fact0 mulr1 divff //.
by rewrite mulf_neq0 ?fact_neq0.
Qed.

Lemma pade_d0 p q : pade_d F p q 0 = 1.
Proof.
rewrite /pade_d !subn0 fact0 mulr1 divff //.
by rewrite mulf_neq0 ?fact_neq0.
Qed.

Lemma pade_N_0 p q : pade_N (0 : 'M[F]_n) p q = 1.
Proof.
rewrite /pade_N big_nat_recl // pade_c0 expr0 scale1r big1 ?addr0 //.
by move=> i _; rewrite expr0n /= scaler0.
Qed.

Lemma pade_D_0 p q : pade_D (0 : 'M[F]_n) p q = 1.
Proof.
rewrite /pade_D big_nat_recl // pade_d0 expr0 scale1r big1 ?addr0 //.
by move=> i _; rewrite oppr0 expr0n /= scaler0.
Qed.

(** [pade_expm] on an invertible denominator. *)
Lemma pade_expm_unit A p q :
  pade_D A p q \in unitmx ->
  pade_expm A p q = Ret (invmx (pade_D A p q) *m pade_N A p q).
Proof.
by move=> HD; rewrite /pade_expm pade_numerator pade_denominator /inv HD.
Qed.

(** X12: the approximant of the zero matrix is the identity, for all orders. *)
Theorem pade_expm_zero p q : pade_expm (0 : 'M[F]_n) p q = Ret 1%:M.
Proof.
rewrite pade_expm_unit pade_D_0 ?unitmx1 //.
by rewrite pade_N_0 invmx1 mulmx1.
Qed.

(** X13: with a denominator of order 0 the approximant is the Taylor polynomial
    of degree [p]; it never raises. *)
Theorem pade_expm_taylor A p :
  pade_expm A p 0 = Ret (\sum_(0 <= i < p.+1) (i`!%:R)^-1 *: A ^+ i).
Proof.
have HD : pade_D A p 0 = 1.
  by rewrite /pade_D big_nat1 pade_d0 expr0 scale1r.
rewrite pade_expm_unit HD ?unitmx1 // invmx1 mul1mx; congr Ret.
rewrite /pade_N big_nat_cond [in RHS]big_nat_cond.
apply: eq_bigr => i /andP[/andP[_ Hi] _]; congr (_ *: _).
rewrite /pade_c addn0 [X in _ / X]mulrAC [X in _ / X]mulrC invfM mulrCA.
by rewrite [_ * p`!%:R]mulrC divff ?mulr1 // mulf_neq0 ?fact_neq0.
Qed.

(** X14: [pade_expm] raises, and then LinAlgError, exactly when the denominator
    matrix is singular. *)
Theorem pade_expm_raises A p q (e : exn) :
  pade_expm A p q = Raise e <-> e = LinAlgError /\ pade_D A p q \notin unitmx.
Proof.
case HD: (pade_D A p q \in unitmx).
  by rewrite pade_expm_unit //; split=> // -[].
by rewrite pade_expm_singular ?HD //; split=> [[<-]|[->]].
Qed.

(** The numerator and the denominator exchange when [A] changes sign and
    the orders are swapped. *)
Lemma pade_N_opp A p q : pade_N (- A) q p = pade_D A p q.
Proof.
rewrite /pade_N /pade_D; apply: eq_bigr => i _.
by rewrite /pade_c /pade_d ![(q + p)%N]addnC.
Qed.

Lemma pade_D_opp A p q : pade_D (- A) q p = pade_N A p q.
Proof.
rewrite /pade_N /pade_D; apply: eq_bigr => i _.
by rewrite opprK /pade_c /pade_d ![(q + p)%N]addnC.
Qed.

(** X15: as [exp(A) exp(-A) = 1]: the [(q, p)] approximant at [-A] is the
    inverse of the [(p, q)] approximant at [A]. *)
Theorem pade_expm_inverse A p q :
  pade_D A p q \in unitmx -> pade_N A p q \in unitmx ->
  exists X Y,
    [/\ pade_expm A p q = Ret X, pade_expm (- A) q p = Ret Y & X *m Y = 1%:M].
Proof.
move=> HD HN.
exists (invmx (pade_D A p q) *m pade_N A p q),
       (invmx (pade_N A p q) *m pade_D A p q).
split; first exact: pade_expm_unit.
  by rewrite pade_expm_unit pade_D_opp // pade_N_opp.
by rewrite mulmxA -[_ *m pade_N A p q *m _]mulmxA mulmxV // mulmx1 mulVmx.
Qed.

End PadeMore.

Section PadeWitnesses.

Import Pade.
Local Open Scope ring_scope.

Lemma pade_expm_inverse_witness :
  [/\ pade_D (0 : 'M[rat]_2) 1 1 \in unitmx,
      pade_N (0 : 'M[rat]_2) 1 1 \in unitmx
    & exists X Y,
        [/\ pade_expm (0 : 'M[rat]_2) 1 1 = Ret X,
            pade_expm (- (0 : 'M[rat]_2)) 1 1 = Ret Y & X *m Y = 1%:M]].
Proof.
have HD : pade_D (0 : 'M[rat]_2) 1 1 \in unitmx by rewrite pade_D_0 unitmx1.
have HN : pade_N (0 : 'M[rat]_2) 1 1 \in unitmx by rewrite pade_N_0 unitmx1.
by split; [exact: HD | exact: HN | apply: pade_expm_inverse].
Defined.

End PadeWitnesses.

(** ** Further properties of arnoldi, lanczos and krylov_expm *)

Section LoopInvariant.

Variables (S : Type) (P : S -> Prop) (body : nat -> S -> exact (flow S)).

(** What every iteration keeps holds of the state that the loop returns,
    at its end or at an early return. *)
Lemma loop_invariant (js : seq nat) (s r : S) :
  (forall j s1 s2, j \in js -> P s1 ->
     body j s1 = Val (Next s2) \/ body j s1 = Val (Return s2) -> P s2) ->
  P s -> loop_ body js s = Val r -> P r.
Proof.
elim: js s => [|j js IH] s Hbody Hs /=; first by case=> <-.
have Hj : j \in j :: js by rewrite mem_head.
case E: (body j s) => [[s'|s']|k] //.
  apply: IH; last by apply: (Hbody j s s' Hj Hs); left.
  by move=> i s1 s2 Hi; apply: Hbody; rewrite in_cons Hi orbT.
by case=> <-; apply: (Hbody j s s' Hj Hs); right.
Qed.

(** The same with an invariant that depends on the loop index, for a loop
    over [j, j+1, ..., j+l-1]; [Q] is what the invariant gives at an early
    return and at the end. *)
Lemma loop_invariant_at (Pj : nat -> S -> Prop) (Q : S -> Prop) l j s r :
  (forall i s1 s2, (j <= i < j + l)%N -> Pj i s1 ->
     body i s1 = Val (Next s2) -> Pj i.+1 s2) ->
  (forall i s1 s2, (j <= i < j + l)%N -> Pj i s1 ->
     body i s1 = Val (Return s2) -> Q s2) ->
  (forall s', Pj (j + l)%N s' -> Q s') ->
  Pj j s -> loop_ body (iota j l) s = Val r -> Q r.
Proof.
elim: l j s => [|l IH] j s Hn Hr Hend HP /=.
  by case=> <-; apply: Hend; rewrite addn0.
have Hj : (j <= j < j + l.+1)%N by rewrite leqnn -{1}[j]addn0 ltn_add2l.
case Hb: (body j s) => [[s'|s']|] //; last first.
  by case=> <-; apply: (Hr j s).
apply: (IH j.+1); last exact: (Hn j s).
- move=> i s1 s2 /andP[Hi1 Hi2]; apply: Hn.
  by rewrite (ltnW Hi1) -addSnnS.
- move=> i s1 s2 /andP[Hi1 Hi2]; apply: Hr.
  by rewrite (ltnW Hi1) -addSnnS.
- by move=> s1; rewrite addSnnS; apply: Hend.
Qed.

End LoopInvariant.

Section KrylovMore.

Import Krylov.
Local Open Scope ring_scope.

Variable C : numClosedFieldType.
Variable m' : nat.
Local Notation m := m'.+1.

Local Arguments arnoldi_body : simpl never.
Local Arguments arnoldi_project : simpl never.

Implicit Types (A V H W : 'M[C]_m) (b w u v : 'cV[C]_m) (i j k : nat).

Variable expm : 'M[C]_m -> 'M[C]_m.

(** X16: on the zero vector the first statement of both builders divides zero by
    zero, and so does [krylov_expm]. *)
Theorem krylov_zero_vector A :
  [/\ arnoldi A 0 = ZeroDivide 0, lanczos A 0 = ZeroDivide 0
    & krylov_expm expm A 0 = ZeroDivide 0].
Proof.
have Ha : arnoldi A 0 = ZeroDivide 0.
  by rewrite /arnoldi /arnoldi_init norm2_0 vdiv_zero.
have Hl : lanczos A 0 = ZeroDivide 0.
  by rewrite /lanczos /lanczos_init norm2_0 vdiv_zero.
by split=> //; rewrite /krylov_expm Ha Hl; case: ifP.
Qed.

(** *** The shape of [H] *)

Lemma hessenberg_set H i j (x : C) :
  (i <= j.+1)%N -> upper_hessenberg H -> upper_hessenberg (set H i j x).
Proof.
move=> Hij HH r c Hrc; rewrite mxE; case: andP => [[/eqP Hr /eqP Hc]|_].
  by move: Hrc; rewrite Hr Hc ltnNge Hij.
exact: HH.
Qed.

Lemma hessenberg_inner V j (s : seq nat) (wH : 'cV[C]_m * 'M[C]_m) :
  (forall i, i \in s -> i <= j)%N -> upper_hessenberg wH.2 ->
  upper_hessenberg (foldl (arnoldi_inner V j) wH s).2.
Proof.
elim: s wH => [|i s IH] [w H] //= Hs HH.
apply: IH => [k Hk|] /=; first by apply: Hs; rewrite in_cons Hk orbT.
have Hij : (i <= j)%N by apply: Hs; rewrite mem_head.
apply: hessenberg_set => //.
by case: i j Hij {Hs} => [|i] [|j] //= /ltnW.
Qed.

Lemma hessenberg_project A V H j :
  upper_hessenberg H -> upper_hessenberg (arnoldi_project A V H j).2.
Proof.
move=> HH; rewrite /arnoldi_project; apply: hessenberg_inner => // i.
by rewrite mem_iota add1n ltnS => /andP[].
Qed.

(** X17: the matrix [H] that [arnoldi] returns is upper Hessenberg. *)
Theorem arnoldi_hessenberg A b V H :
  arnoldi A b = Val (V, H) -> upper_hessenberg H.
Proof.
rewrite /arnoldi /arnoldi_init; case: (vdiv 0 b _) => [v0|] //.
rewrite /ebind => Hloop.
pose P (s : 'M[C]_m * 'M[C]_m) := upper_hessenberg s.2.
apply: (@loop_invariant _ P _ _ _ (V, H) _ _ Hloop); last first.
  by move=> r c _; rewrite mxE.
move=> j [V1 H1] [V2 H2] _; rewrite /P /= => HH1; rewrite /arnoldi_body.
have := hessenberg_project A V1 j HH1.
case: (arnoldi_project A V1 H1 j) => w H3 /= HH3.
have HH4 : upper_hessenberg (set H3 j j.-1 (norm2 w)).
  by apply: hessenberg_set => //; case: (j).
case: ifP => _; last by case=> // -[_ <-].
case: ifP => _; last by case=> // -[_ <-].
by rewrite /vdiv; case: ifP => _ //= [] // [_ <-].
Qed.

(** *** The first column of [V] *)




(** *** The Arnoldi relation *)

Lemma get_getc H i c : get H i c = getc H c (inord i) 0.
Proof. by rewrite /get /getc mxE. Qed.

Lemma get_set_row H i j (x : C) k c :
  (k < m)%N -> k != i -> get (set H i j x) k c = get H k c.
Proof. by move=> Hk Hki; rewrite /get mxE inordK // (negbTE Hki). Qed.

(** [V H[:, c]] as a combination of the columns of [V]. *)
Lemma mulmx_getc V H c :
  V *m getc H c = \sum_(0 <= i < m) get H i c *: getc V i.
Proof.
apply/matrixP=> r k; rewrite mxE big_mkord summxE.
by apply: eq_bigr => i _; rewrite !mxE /get inord_val mulrC.
Qed.

(** The inner loop subtracts from [w] the combination of the columns of [V]
    whose coefficients it stores in the column [j-1] of [H]. *)
Lemma arnoldi_inner_sum V j l w H :
  (0 < j <= m)%N -> (l <= j)%N ->
  w = (foldl (arnoldi_inner V j) (w, H) (iota 1 l)).1
      + \sum_(0 <= i < l)
          get (foldl (arnoldi_inner V j) (w, H) (iota 1 l)).2 i j.-1
            *: getc V i.
Proof.
case/andP=> Hj0 Hjm; elim: l => [|l IH] Hl; first by rewrite big_geq // addr0.
rewrite iota_rcons !foldl_rcons add1n big_nat_recr //=.
case: (foldl (arnoldi_inner V j) _ _) (IH (ltnW Hl)) => w1 H1 /= Hw.
have Hlm : (l < m)%N := leq_trans Hl Hjm.
set H2 := set H1 _ _ _.
have -> : \sum_(0 <= i < l) get H2 i j.-1 *: getc V i
          = \sum_(0 <= i < l) get H1 i j.-1 *: getc V i.
  apply: eq_big_nat => i /andP[_ Hi].
  by rewrite get_set_row ?(ltn_eqF Hi) // (ltn_trans Hi Hlm).
by rewrite {1}Hw addrACA addNr addr0.
Qed.

Lemma arnoldi_project_sum A V H j :
  (0 < j <= m)%N ->
  A *m getc V j.-1
  = (arnoldi_project A V H j).1
    + \sum_(0 <= i < j) get (arnoldi_project A V H j).2 i j.-1 *: getc V i.
Proof. by move=> Hj; rewrite /arnoldi_project -arnoldi_inner_sum. Qed.

(** An iteration that stores a new basis vector extends the relation to the
    column of [H] it has written. *)
Lemma arnoldi_rel_continue A j V H :
  (0 < j < m)%N -> arnoldi_rel_inv A j V H ->
  let w := (arnoldi_project A V H j).1 in
  norm2 w != 0 ->
  arnoldi_rel_inv A j.+1 (setc V j ((norm2 w)^-1 *: w))
    (set (arnoldi_project A V H j).2 j j.-1 (norm2 w)).
Proof.
move=> Hj [_ HV HH Hrel] w Hw; case/andP: (Hj) => Hj0 Hjm.
have Hsum := arnoldi_project_sum A V H (_ : (0 < j <= m)%N).
rewrite Hj0 ltnW // in Hsum; move/(_ isT): Hsum => Hsum.
rewrite -/w in Hsum.
set H1 := (arnoldi_project A V H j).2 in Hsum *.
have HH1 : upper_hessenberg H1 by apply: hessenberg_project.
have HH2 : upper_hessenberg (set H1 j j.-1 (norm2 w)).
  by apply: hessenberg_set => //; rewrite prednK.
have Hj1 : (j.-1 < m)%N by rewrite prednK // ltnW.
split=> // [k Hk Hkm|c].
  by rewrite getc_setc_neq ?HV ?(gtn_eqF Hk) // ltnW.
rewrite ltnS leq_eqVlt => /orP[/eqP Hc|Hc] Hcm.
  have {Hc}-> : c = j.-1 by rewrite -Hc.
  have Hjj : j.-1 != j by rewrite ltn_eqF // prednK.
  rewrite getc_setc_neq // [RHS]mulmx_getc.
  rewrite [RHS](@big_cat_nat _ _ _ j) ?(ltnW Hjm) //=.
  rewrite [X in _ = _ + X]big_ltn //.
  rewrite get_set_eq // getc_setc_eq // scalerA mulfV // scale1r.
  rewrite [X in _ = _ + (_ + X)]big_nat_cond [X in _ = _ + (_ + X)]big1
    ?addr0 => [i /andP[/andP[Hji Him] _]|].
    by rewrite getc_setc_neq ?(gtn_eqF Hji) // HV ?scaler0 // ltnW.
  rewrite Hsum addrC; congr (_ + _); apply: eq_big_nat => i /andP[_ Hi].
  have Him := ltn_trans Hi Hjm.
  by rewrite get_set_row ?getc_setc_neq ?(ltn_eqF Hi).
have Hc_m : (c < m)%N := ltnW Hcm.
have Hcj : c != j by rewrite ltn_eqF // ltnW.
have Hcj1 : c != j.-1 by rewrite ltn_eqF // -ltnS prednK.
have HcH : getc (set H1 j j.-1 (norm2 w)) c = getc H c.
  by rewrite getc_set // /H1 arnoldi_project_cols.
rewrite getc_setc_neq // (Hrel c Hc Hcm) !mulmx_getc.
apply: eq_big_nat => i /andP[_ Him]; rewrite !get_getc HcH.
case: (eqVneq i j) => [->|Hij]; last by rewrite getc_setc_neq.
rewrite -get_getc; have -> : get H j c = 0.
  by rewrite /get HH // !inordK // ltnW.
by rewrite !scale0r.
Qed.

(** An iteration that leaves [V] and the earlier columns of [H] as they are
    keeps the relation. *)
Lemma arnoldi_rel_keep A j V H H' :
  (0 < j <= m)%N -> arnoldi_rel_inv A j V H -> upper_hessenberg H' ->
  (forall c, (c.+1 < j)%N -> getc H' c = getc H c) ->
  forall c, (c.+1 < j)%N -> (c.+1 < m)%N -> A *m getc V c = V *m getc H' c.
Proof.
by move=> Hj [_ HV HH Hrel] HH' Hcols c Hc Hcm; rewrite Hcols // Hrel.
Qed.

(** What the invariant gives for the arrays that [arnoldi] returns. *)
Lemma arnoldi_rel_post A b V H :
  arnoldi A b = Val (V, H) ->
  upper_hessenberg H
  /\ forall c, (c.+1 < m)%N -> getc V c.+1 != 0 ->
       A *m getc V c = V *m getc H c.
Proof.
rewrite /arnoldi; case Hinit: (arnoldi_init b) => [[V0 H0]|] //.
rewrite /ebind => Hloop.
pose P j (s : 'M[C]_m * 'M[C]_m) := arnoldi_rel_inv A j s.1 s.2.
pose Q (s : 'M[C]_m * 'M[C]_m) :=
  upper_hessenberg s.2
  /\ forall c, (c.+1 < m)%N -> getc s.1 c.+1 != 0 ->
       A *m getc s.1 c = s.1 *m getc s.2 c.
apply: (@loop_invariant_at _ (arnoldi_body A) P Q m 1 (V0, H0) (V, H)
          _ _ _ _ Hloop).
- move=> j [V1 H1] [V2 H2] /andP[Hj0 Hjm] HP.
  move: Hjm HP; rewrite add1n ltnS leq_eqVlt => /orP[/eqP ->|Hjm] HP.
    rewrite arnoldi_body_last => -[<- <-]; case: (HP) => _ HV HH Hrel.
    split=> //; first by move=> k /ltnW Hk; apply: HV.
      exact: hessenberg_project.
    move=> k _ Hk; apply: (arnoldi_rel_keep _ HP) => //.
    + by rewrite ltn0Sn leqnn.
    + exact: hessenberg_project.
    + by move=> k' Hk'; rewrite arnoldi_project_cols ?ltn_eqF // ltnW.
  rewrite arnoldi_body_eq ?Hj0 //=; case: ifP => // Htol [<- <-].
  apply: arnoldi_rel_continue; rewrite ?Hj0 //.
  by rewrite gt_eqF // (lt_trans (tol_gt0 C)).
- move=> j [V1 H1] [V2 H2] /andP[Hj0 Hjm] HP.
  move: Hjm HP; rewrite add1n ltnS leq_eqVlt => /orP[/eqP ->|Hjm] HP.
    by rewrite arnoldi_body_last.
  rewrite arnoldi_body_eq ?Hj0 //=; case: ifP => // Htol [<- <-].
  case: (HP) => _ HV HH Hrel.
  have HH2 : upper_hessenberg
      (set (arnoldi_project A V1 H1 j).2 j j.-1
         (norm2 (arnoldi_project A V1 H1 j).1)).
    by apply: hessenberg_set; rewrite ?prednK //; apply: hessenberg_project.
  split=> // k Hkm /= Hk.
  have Hkj : (k.+1 < j)%N.
    by rewrite ltnNge; apply: contra Hk => Hjk; rewrite HV.
  have Hj1 : (0 < j <= m)%N by rewrite Hj0 ltnW.
  apply: (arnoldi_rel_keep Hj1 HP) => //.
  move=> k' Hk'; have Hk'm : (k' < m)%N by apply: ltn_trans Hjm; apply: ltnW.
  by rewrite getc_set ?arnoldi_project_cols // ltn_eqF // -ltnS prednK.
- move=> [V1 H1] [_ _ HH Hrel]; split=> // k Hkm _.
  by apply: Hrel; rewrite // add1n ltnS ltnW.
- case: (arnoldi_init_inv Hinit) => _ HV _; split=> //.
  move: Hinit; rewrite /arnoldi_init; case: (vdiv _ _ _) => //= v [_ <-].
  by move=> r k _; rewrite mxE.
Qed.

(** X19: for every column [c] whose successor [V[:, c+1]] was constructed, the
    arrays that [arnoldi] returns satisfy [A V[:, c] = V H[:, c]]: the
    column [c] of [H] holds the coordinates of [A V[:, c]] in the basis. *)
Theorem arnoldi_relation A b V H c :
  arnoldi A b = Val (V, H) -> (c.+1 < m)%N -> getc V c.+1 != 0 ->
  A *m getc V c = V *m getc H c.
Proof. by move=> Harn; case: (arnoldi_rel_post Harn) => _; apply. Qed.

(** *** The entries of [H] as inner products *)

Lemma vdotDr u w v : vdot u (w + v) = vdot u w + vdot u v.
Proof.
rewrite /vdot -big_split; apply: eq_bigr => k _.
by rewrite !mxE mulrDr.
Qed.

Lemma vdot_sumr u (F : nat -> 'cV[C]_m) n :
  vdot u (\sum_(0 <= l < n) F l) = \sum_(0 <= l < n) vdot u (F l).
Proof. exact: (big_morph (vdot u) (vdotDr u) (vdot0r u)). Qed.

(** The columns of the [V] that [arnoldi] returns are orthonormal below
    some [k] and zero from [k] on. *)
Lemma arnoldi_basis A b V H :
  arnoldi A b = Val (V, H) ->
  exists k, orthonormal_upto V k /\ zero_from V k.
Proof.
rewrite /arnoldi; case Hinit: (arnoldi_init b) => [[V0 H0]|] //.
rewrite /ebind => Hloop; have Hinv := arnoldi_init_inv Hinit.
case: (@arnoldi_loop_post _ _ A m 1 V0 H0 isT (add1n m) Hinv)
  => V' [H' [k [Hloop' _ Hon Hz _]]].
by move: Hloop'; rewrite Hloop => -[HV _]; exists k; rewrite HV.
Qed.

(** X20: for every column [c] whose successor was constructed, the entries of
    the column [c] of the returned [H] are the inner products of the
    columns of [V] with [A V[:, c]]: on these columns [H] is the projection
    [V^H A V]. *)
Theorem arnoldi_projection A b V H c i :
  arnoldi A b = Val (V, H) -> (c.+1 < m)%N -> getc V c.+1 != 0 ->
  (i < m)%N -> get H i c = vdot (getc V i) (A *m getc V c).
Proof.
move=> Harn Hcm Hc Him.
have [k [Hon Hz]] := arnoldi_basis Harn.
have [HH Hrel] := arnoldi_rel_post Harn.
have Hck : (c.+1 < k)%N by rewrite ltnNge; apply: contra Hc => Hkc; rewrite Hz.
rewrite (Hrel c Hcm Hc) mulmx_getc vdot_sumr.
case: (ltnP i k) => [Hik|Hki]; last first.
  rewrite big1_seq => [l _|]; first by rewrite Hz // vdot0l.
  by rewrite /get HH // !inordK // ?(ltnW Hcm) // (leq_trans Hck).
have Hlt l : (l < i)%N -> vdot (getc V i) (get H l c *: getc V l) = 0.
  move=> Hl; rewrite vdotZr Hon ?(gtn_eqF Hl) ?mulr0 //.
  exact: ltn_trans Hl Hik.
have Hgt l :
    (i < l < m)%N -> vdot (getc V i) (get H l c *: getc V l) = 0.
  case/andP=> Hl Hlm; rewrite vdotZr; case: (ltnP l k) => [Hlk|Hkl].
    by rewrite Hon // (ltn_eqF Hl) mulr0.
  by rewrite (Hz l Hkl Hlm) vdot0r mulr0.
rewrite (@big_cat_nat _ _ _ i) ?(ltnW Him) //= [X in _ + X]big_ltn //.
rewrite vdotZr Hon // eqxx mulr1.
have -> : \sum_(0 <= l < i) vdot (getc V i) (get H l c *: getc V l) = 0.
  by rewrite big_nat_cond big1 // => l /andP[/andP[_ Hl] _]; apply: Hlt.
have -> : \sum_(i.+1 <= l < m) vdot (getc V i) (get H l c *: getc V l) = 0.
  by rewrite big_nat_cond big1 // => l /andP[Hl _]; apply: Hgt.
by rewrite add0r addr0.
Qed.

(** *** The shape of the [H] of [lanczos] *)

Lemma getv_setv_neq (a : 'cV[C]_m) j (x : C) i :
  (i < m)%N -> i != j -> getv (setv a j x) i = getv a i.
Proof. by move=> Hi Hij; rewrite /getv mxE inordK // (negbTE Hij). Qed.

(** An iteration of [lanczos] that does not fail has stored a positive
    [beta[j-1]]. *)
Lemma lanczos_body_beta A j (s s' : lanczos_state C m') :
  (0 < j.-1 < m)%N -> lanczos_body A j s = Val (Next s') ->
  0 < getv (lz_beta s') j.-1
  /\ forall i, (i < m)%N -> i != j.-1 ->
       getv (lz_beta s') i = getv (lz_beta s) i.
Proof.
case/andP=> Hj0 Hjm; rewrite /lanczos_body /vdiv getv_setv_eq //.
case: ifP => // /negbT Hn [<-] /=; rewrite getv_setv_eq //; split.
  by rewrite lt0r Hn norm2_ge0.
by move=> i Hi Hij; rewrite getv_setv_neq.
Qed.

(** X21: the matrix [H] that [lanczos] returns is tridiagonal and symmetric, and
    its entries next to the diagonal are positive reals: they are the norms
    by which the loop has divided. *)
Theorem lanczos_tridiagonal A b V H (r k : 'I_m) :
  lanczos A b = Val (V, H) ->
  [/\ ((r.+1 < k) || (k.+1 < r))%N -> H r k = 0,
      H k r = H r k
    & (k = r.+1 :> nat) -> 0 < H r k].
Proof.
rewrite /lanczos; case: (lanczos_init A b) => [s0|] //; rewrite /ebind.
case Hloop: (loop_ _ _ _) => [s|] // [_ <-]; split.
- case/orP=> Hrk; rewrite !mxE -val_eqE /=.
    rewrite (ltn_eqF (ltnW Hrk)) (gtn_eqF Hrk).
    by rewrite (ltn_eqF (ltn_trans (ltnW Hrk) (ltnSn k))) !addr0.
  rewrite (gtn_eqF (ltnW Hrk)) (gtn_eqF Hrk).
  by rewrite (ltn_eqF (ltn_trans (ltnW Hrk) (ltnSn r))) !addr0.
- rewrite !mxE [k == r]eq_sym; case: eqP => [->|_] //.
  by rewrite addrAC.
move=> Hk; rewrite !mxE -val_eqE /=.
have -> : ((r : nat) == k) = false by rewrite Hk ltn_eqF.
have -> : ((r : nat) == k.+1) = false.
  by rewrite Hk ltn_eqF // ltnS leqnSn.
rewrite Hk eqxx add0r addr0.
pose P j (s1 : lanczos_state C m') :=
  forall i, (0 < i)%N -> (i.+1 < j)%N -> 0 < getv (lz_beta s1) i.
have : forall i, (0 < i)%N -> (i.+1 < 2 + m')%N -> 0 < getv (lz_beta s) i.
  apply: (@loop_invariant_at _ (lanczos_body A) P (P (2 + m')%N) m' 2 s0 s
            _ _ _ _ Hloop) => //.
  - move=> j s1 s2 /andP[Hj2 Hjm] HP Hbody i Hi0; rewrite ltnS => Hij.
    have Hj : (0 < j.-1 < m)%N.
      by rewrite -subn1 subn_gt0 Hj2 subn1 prednK ?(ltnW Hj2).
    have [Hpos Hold] := lanczos_body_beta Hj Hbody.
    move: Hij; rewrite leq_eqVlt => /orP[/eqP Hij|Hij].
      by rewrite -Hij /= in Hpos.
    have Him : (i < m)%N by apply: ltnW; apply: leq_trans Hij _; rewrite -ltnS.
    have Hij1 : i != j.-1 by rewrite ltn_eqF // -ltnS prednK // (ltnW Hj2).
    by rewrite Hold ?HP.
  - by move=> j s1 s2 _ _; rewrite /lanczos_body; case: (vdiv _ _ _).
  - by rewrite /P => i Hi0; rewrite !ltnS leqNgt Hi0.
move/(_ k); rewrite /getv inord_val; apply; first by rewrite Hk.
by rewrite add2n ltnS ltn_ord.
Qed.

End KrylovMore.

Section KrylovMoreWitnesses.

Import Krylov.
Local Open Scope ring_scope.

Lemma arnoldi_hessenberg_witness :
  let A : 'M[algC]_3 := \matrix_(r, k) ((r : nat) == (k.+1 %% 3)%N)%:R in
  let b : 'cV[algC]_3 := delta_mx 0 0 in
  exists V H, arnoldi A b = Val (V, H) /\ upper_hessenberg H.
Proof.
move=> A b; have [H E] := arnoldi_shift algC.
by eexists; exists H; split; [exact: E | apply: (arnoldi_hessenberg E)].
Defined.


Lemma arnoldi_relation_witness :
  let A : 'M[algC]_2 := \matrix_(r, k) (r != k)%:R in
  let b : 'cV[algC]_2 := delta_mx 0 0 in
  exists V H,
    [/\ arnoldi A b = Val (V, H), (1 < 2)%N, getc V 1 != 0
      & A *m getc V 0 = V *m getc H 0].
Proof.
move=> A b; have [H E] := arnoldi_exchange algC.
exists (setc (setc 0 0 b) 1 (delta_mx 1 0)), H.
have HV : getc (setc (setc 0 0 b) 1 (delta_mx 1 0)) 1 != 0 :> 'cV[algC]_2.
  by rewrite getc_setc_eq // delta_neq0.
by split; [exact: E | | exact: HV | apply: (arnoldi_relation E _ HV)].
Defined.

Lemma arnoldi_projection_witness :
  let A : 'M[algC]_2 := \matrix_(r, k) (r != k)%:R in
  let b : 'cV[algC]_2 := delta_mx 0 0 in
  exists V H,
    [/\ arnoldi A b = Val (V, H), (1 < 2)%N, getc V 1 != 0
      & get H 1 0 = vdot (getc V 1) (A *m getc V 0)].
Proof.
move=> A b; have [H E] := arnoldi_exchange algC.
exists (setc (setc 0 0 b) 1 (delta_mx 1 0)), H.
have HV : getc (setc (setc 0 0 b) 1 (delta_mx 1 0)) 1 != 0 :> 'cV[algC]_2.
  by rewrite getc_setc_eq // delta_neq0.
have H12 : (1 < 2)%N by [].
by split; [exact: E | | exact: HV | apply: (arnoldi_projection E H12 HV H12)].
Defined.

Lemma lanczos_tridiagonal_witness :
  let A : 'M[algC]_2 := \matrix_(r, k) (r != k)%:R in
  let b : 'cV[algC]_2 := delta_mx 0 0 in
  exists V H,
    [/\ lanczos A b = Val (V, H), H 1 0 = H 0 1 & 0 < H 0 1].
Proof.
move=> A b; have [V [H E]] := lanczos_exchange algC.
have [_ Hsym Hpos] := lanczos_tridiagonal 0 1 E.
by exists V, H; split; [exact: E | exact: Hsym | exact: Hpos].
Defined.

End KrylovMoreWitnesses.

(** ** liouvillian *)

Section LiouvilleTheory.

Import Misc Liouville.
Local Open Scope ring_scope.

Variable R : comNzRingType.
Variable n' : nat.
Local Notation n := n'.+1.

Implicit Types (H M rho : 'M[R]_n).

Lemma nth_flatten_uniform (T : Type) (x0 : T) k (ss : seq (seq T)) j i :
  all (fun s => size s == k) ss -> (i < k)%N ->
  nth x0 (flatten ss) (j * k + i) = nth x0 (nth [::] ss j) i.
Proof.
elim: ss j => [|s ss IH] j /=; first by rewrite !nth_nil.
case/andP=> /eqP Hs Hss Hi; rewrite nth_cat Hs; case: j => [|j] /=.
  by rewrite mul0n add0n Hi.
by rewrite mulSn -addnA ltnNge leq_addr /= addKn IH.
Qed.

(** [vec] lists the entries of a square array column by column: the
    position [r] holds the entry [(r % n, r // n)]. *)
Lemma nth_vec_array_of M r :
  (r < n * n)%N ->
  nth 0 (vec (array_of M)) r = M (inord (r %% n)%N) (inord (r %/ n)%N).
Proof.
move=> Hr; rewrite /vec /=.
set rows := [seq _ | i <- enum 'I_n].
have Hsz : size rows = n by rewrite size_map size_enum_ord.
have Hrows : all (fun s => size s == n) rows.
  by apply/allP=> s /mapP[i _ ->]; rewrite size_map size_enum_ord.
have Hcols : all (fun s => size s == n) (transpose n rows).
  by have := all_size_transpose n rows; rewrite Hsz.
have Hd : (r %/ n < n)%N by rewrite ltn_divLR.
have Hm : (r %% n < n)%N by rewrite ltn_mod.
rewrite {1}(divn_eq r n) nth_flatten_uniform //.
rewrite (nth_transpose 0 Hrows) ?Hsz //.
rewrite /rows (nth_map ord0) ?size_enum_ord //.
rewrite (nth_map ord0) ?size_enum_ord //.
by congr (M _ _); apply: val_inj; rewrite /= nth_enum_ord ?inordK.
Qed.

Lemma sum_eye (a : 'I_n) (X : 'I_n -> R) : \sum_j eye R n' a j * X j = X a.
Proof.
have H0 (j : 'I_n) : j != a -> eye R n' a j * X j = 0.
  by move=> Hj; rewrite mxE eq_sym (negbTE Hj) mul0r.
by rewrite (bigD1 a) //= (big1 _ _ _ H0) mxE eqxx mul1r addr0.
Qed.

(** A sum over the positions of a flattened square array, by columns. *)
Lemma sum_positions (G : nat -> nat -> R) :
  \sum_(0 <= c < n * n) G (c %/ n)%N (c %% n)%N
  = \sum_(j < n) \sum_(k < n) G j k.
Proof.
rewrite big_nat_mul big_mkord; apply: eq_bigr => j _.
rewrite -{1}[(j * n)%N]add0n big_addn mulSn addnK big_mkord.
apply: eq_bigr => k _.
by rewrite ![(k + _)%N]addnC divnMDl // modnMDl divn_small ?modn_small ?addn0.
Qed.

(** X22: with [vec] flattening column by column, the Liouvillian acts on the
    vectorised density matrix as the commutator with [H]:
    [liouvillian(H) @ vec(rho) = vec(H @ rho - rho @ H)]. *)
Theorem liouvillian_commutator H rho :
  liouvillian H *m column_of n' (vec (array_of rho))
  = column_of n' (vec (array_of (H *m rho - rho *m H))).
Proof.
apply/matrixP=> r k; rewrite (ord1 k) {k} [RHS]mxE nth_vec_array_of //.
set a := inord (r %/ n)%N; set b := inord (r %% n)%N.
pose G (j k : nat) : R :=
  (eye R n' a (inord j) * H b (inord k) - H (inord j) a * eye R n' b (inord k))
  * rho (inord k) (inord j).
transitivity (\sum_(0 <= c < n * n) G (c %/ n)%N (c %% n)%N).
  rewrite mxE big_mkord; apply: eq_bigr => c _.
  by rewrite /G !mxE nth_vec_array_of.
rewrite (sum_positions G).
transitivity (\sum_(j < n) (eye R n' a j * (\sum_(k < n) H b k * rho k j))
              - \sum_(j < n) (H j a * (\sum_(k < n) eye R n' b k * rho k j))).
  rewrite -sumrB; apply: eq_bigr => j _.
  rewrite !mulr_sumr -sumrB; apply: eq_bigr => k _.
  by rewrite /G !inord_val mulrBl !mulrA.
rewrite sum_eye !mxE; congr (_ - _); apply: eq_bigr => j _.
by rewrite sum_eye mulrC.
Qed.

Lemma sum_diag (j : 'I_n) (X : 'I_n -> R) :
  \sum_(k < n) (1%:M : 'M[R]_n) k j * X k = X j.
Proof.
have H0 (k : 'I_n) : k != j -> (1%:M : 'M[R]_n) k j * X k = 0.
  by move=> Hk; rewrite mxE (negbTE Hk) mul0r.
by rewrite (bigD1 j) //= (big1 _ _ _ H0) mxE eqxx mul1r addr0.
Qed.

(** X23: the Liouvillian preserves the trace: the entries of each of its columns
    at the positions of the diagonal of the vectorised matrix add up to
    zero, that is [vec(I)^T @ liouvillian(H) = 0]. *)
Theorem liouvillian_trace H :
  (column_of n' (vec (array_of (1%:M : 'M[R]_n))))^T *m liouvillian H = 0.
Proof.
apply/matrixP=> i c; rewrite (ord1 i) {i} [RHS]mxE.
pose a : 'I_n := inord (c %/ n)%N; pose b : 'I_n := inord (c %% n)%N.
pose G (j k : nat) : R :=
  (1%:M : 'M[R]_n) (inord k) (inord j)
  * (eye R n' (inord j) a * H (inord k) b
     - H a (inord j) * eye R n' (inord k) b).
transitivity (\sum_(0 <= r < n * n) G (r %/ n)%N (r %% n)%N).
  rewrite mxE big_mkord; apply: eq_bigr => r _.
  by rewrite /G !mxE nth_vec_array_of // !mxE.
rewrite (sum_positions G).
transitivity (\sum_(j < n) (eye R n' j a * H j b - H a j * eye R n' j b)).
  apply: eq_bigr => j _.
  rewrite -[RHS](sum_diag j
    (fun k => eye R n' j a * H k b - H a j * eye R n' k b)).
  by apply: eq_bigr => k _; rewrite /G !inord_val.
rewrite sumrB.
have -> : \sum_(j < n) eye R n' j a * H j b = H a b.
  rewrite -[RHS](sum_eye a (fun j => H j b)).
  by apply: eq_bigr => j _; rewrite !mxE eq_sym.
have -> : \sum_(j < n) H a j * eye R n' j b = H a b.
  rewrite -[RHS](sum_eye b (fun j => H a j)).
  by apply: eq_bigr => j _; rewrite mulrC !mxE eq_sym.
by rewrite subrr.
Qed.

(** X24: the Liouvillian is linear in the Hamiltonian. *)
Theorem liouvillian_linear (x : R) H M :
  liouvillian (x *: H + M) = x *: liouvillian H + liouvillian M.
Proof.
apply/matrixP=> r c; rewrite !mxE.
rewrite mulrDr mulrDl mulrBr opprD addrACA; congr (_ - _ + _).
  by rewrite mulrCA.
by rewrite mulrA.
Qed.

(** X25: the Liouvillian of a multiple of the identity is zero. *)
Theorem liouvillian_scalar (x : R) : liouvillian (x%:M : 'M[R]_n) = 0.
Proof.
apply/matrixP=> r c; rewrite !mxE [inord (c %/ n)%N == _]eq_sym.
case: (_ == _); case: (_ == _);
  by rewrite ?mulr1n ?mulr0n ?mul1r ?mulr1 ?mul0r ?mulr0 subrr.
Qed.

End LiouvilleTheory.

Section LiouvilleHermitian.

Import Misc Liouville.
Local Open Scope ring_scope.

Variable C : numClosedFieldType.
Variable n' : nat.
Local Notation n := n'.+1.

(** X26: the Liouvillian of a Hermitian matrix is Hermitian: [krylov_expm] finds
    it equal to its conjugate transpose. *)
Theorem liouvillian_hermitian (H : 'M[C]_n) :
  Krylov.is_hermitian H ->
  (map_mx Num.conj (liouvillian H))^T = liouvillian H.
Proof.
move/eqP=> HH.
have Hc (i j : 'I_n) : (H i j)^* = H j i.
  by rewrite -[in RHS]HH !mxE.
apply/matrixP=> r c; rewrite !mxE rmorphB !rmorphM /= !Hc.
rewrite [inord (c %/ n)%N == _]eq_sym [inord (c %% n)%N == _]eq_sym.
by case: (_ == _); case: (_ == _); rewrite ?rmorph1 ?rmorph0.
Qed.

End LiouvilleHermitian.

Section LiouvilleWitnesses.

Import Liouville.
Local Open Scope ring_scope.

Lemma liouvillian_hermitian_witness :
  let H : 'M[algC]_2 := \matrix_(r, k) (r != k)%:R in
  Krylov.is_hermitian H
  /\ (map_mx Num.conj (liouvillian H))^T = liouvillian H.
Proof.
move=> H.
have HH : Krylov.is_hermitian H.
  apply/eqP/matrixP=> r c.
  by rewrite !mxE conjC_nat eq_sym.
by split; [exact: HH | apply: (liouvillian_hermitian HH)].
Defined.

End LiouvilleWitnesses.
